(** * The WebTransport session connection ([conn.go])

    A shallow embedding of the [Conn] type of package [webtransport] and of
    its methods, together with the properties the specification states about
    header prefixes, the accept queues and session closure.

    Conventions of the embedding:
    - a Go interface value that may be [nil] is an [option]: [None] is [nil];
    - [uint64] values are integers in [Z]; a byte is a [Z] below 256;
    - a [chan struct{}] that is only ever closed is the boolean "is closed";
      a [chan struct{}] of capacity one is the boolean "holds a token";
    - a call that may suspend in a [select] returns the list of all its
      possible outcomes, one per case the runtime may pick. *)

From Stdlib Require Import ZArith List String Bool Lia.
Import ListNotations.
Local Open Scope Z_scope.
Local Open Scope list_scope.

(** ** Errors *)

(** Go [error] values that reach this file: the two errors of package
    [context], errors made by the collaborators (the control-stream reader,
    the transport), and the [*fmt.wrapError] that [fmt.Errorf] builds for a
    format with one [%w] verb: its message and the error it wraps. *)
Inductive error_value : Type :=
| context_Canceled : error_value
| context_DeadlineExceeded : error_value
| foreign_error (msg : string) : error_value
| wrapError (msg : string) (err : error_value) : error_value.

(** The interface type [error]; [None] is the nil error. *)
Definition error : Type := option error_value.

(** The [Error()] method. *)
Definition Error (e : error_value) : string :=
  match e with
  | context_Canceled => "context canceled"
  | context_DeadlineExceeded => "context deadline exceeded"
  | foreign_error msg => msg
  | wrapError msg _ => msg
  end.

(** [errors.Unwrap]. *)
Definition errors_Unwrap (e : error_value) : error :=
  match e with
  | wrapError _ err => Some err
  | _ => None
  end.

(** [fmt.Errorf(prefix + "%w", err)] for a non-nil [err]. *)
Definition fmt_Errorf_w (prefix : string) (err : error_value) : error_value :=
  wrapError (prefix ++ Error err) err.

(** ** Contexts *)

(** A [context.Context] as the code observes it: its [Done()] channel is
    open and [Err()] is nil, or [Done()] is closed and [Err()] is the cause
    it finished with. *)
Inductive Context : Type :=
| ctx_active : Context
| ctx_finished (cause : error_value) : Context.

Definition ctx_Done (ctx : Context) : bool :=
  match ctx with
  | ctx_active => false
  | ctx_finished _ => true
  end.

Definition ctx_Err (ctx : Context) : error :=
  match ctx with
  | ctx_active => None
  | ctx_finished cause => Some cause
  end.

(** The [CancelFunc] of [context.WithCancel]: the first call finishes the
    context with [context.Canceled], later calls do nothing. *)
Definition ctxCancel (ctx : Context) : Context :=
  match ctx with
  | ctx_active => ctx_finished context_Canceled
  | ctx_finished cause => ctx_finished cause
  end.

(** What a caller may pass as [ctx]: a context obeying the contract of
    package [context] ([Err()] is [Canceled] or [DeadlineExceeded] once
    [Done()] is closed). *)
Definition caller_context (ctx : Context) : Prop :=
  match ctx with
  | ctx_active => True
  | ctx_finished cause =>
      cause = context_Canceled \/ cause = context_DeadlineExceeded
  end.

(** ** Variable-length integers (package [quicvarint])

    [quicvarint] belongs to the QUIC library that [conn.go] imports.  Its
    [Write] and [Len] are transcribed here as the library has them (the
    variable-length integers of RFC 9000, section 16: the two high bits of
    the first byte give the length, 1, 2, 4 or 8 bytes, the value follows
    in network byte order, and a value above 2^62-1 panics). *)

Module quicvarint.

Definition maxVarInt1 : Z := 63.
Definition maxVarInt2 : Z := 16383.
Definition maxVarInt4 : Z := 1073741823.
Definition maxVarInt8 : Z := 4611686018427387903.

Definition uint8 (i : Z) : Z := Z.land i 255.

(** [Write(w, i)] on a [bytes.Buffer] holding [w]; [None] is the panic for
    a value that does not fit into 62 bits. *)
Definition Write (w : list Z) (i : Z) : option (list Z) :=
  if i <=? maxVarInt1 then
    Some (w ++ [uint8 i])
  else if i <=? maxVarInt2 then
    Some (w ++ [Z.lor (uint8 (Z.shiftr i 8)) 64; uint8 i])
  else if i <=? maxVarInt4 then
    Some (w ++ [Z.lor (uint8 (Z.shiftr i 24)) 128; uint8 (Z.shiftr i 16);
                uint8 (Z.shiftr i 8); uint8 i])
  else if i <=? maxVarInt8 then
    Some (w ++ [Z.lor (uint8 (Z.shiftr i 56)) 192; uint8 (Z.shiftr i 48);
                uint8 (Z.shiftr i 40); uint8 (Z.shiftr i 32);
                uint8 (Z.shiftr i 24); uint8 (Z.shiftr i 16);
                uint8 (Z.shiftr i 8); uint8 i])
  else None.

(** [Len(i)]; [None] is its panic. *)
Definition Len (i : Z) : option Z :=
  if i <=? maxVarInt1 then Some 1
  else if i <=? maxVarInt2 then Some 2
  else if i <=? maxVarInt4 then Some 4
  else if i <=? maxVarInt8 then Some 8
  else None.

(** The encoding of one value: what [Write] puts into an empty buffer. *)
Definition varint (i : Z) : option (list Z) := Write [] i.

(** [Read(r)] on a reader holding the bytes [r]: the value and the bytes
    left in the reader; [None] is the error of a reader that runs dry.  It
    is the library's decoder, the peer's side of the headers. *)
Definition Read (r : list Z) : option (Z * list Z) :=
  match r with
  | [] => None
  | firstByte :: r1 =>
      let len := Z.shiftl 1 (Z.shiftr (Z.land firstByte 192) 6) in
      let b1 := Z.land firstByte 63 in
      if len =? 1 then Some (b1, r1)
      else
        match r1 with
        | [] => None
        | b2 :: r2 =>
            if len =? 2 then Some (b2 + Z.shiftl b1 8, r2)
            else
              match r2 with
              | b3 :: b4 :: r4 =>
                  if len =? 4
                  then Some (b4 + Z.shiftl b3 8 + Z.shiftl b2 16 + Z.shiftl b1 24, r4)
                  else
                    match r4 with
                    | b5 :: b6 :: b7 :: b8 :: r8 =>
                        Some (b8 + Z.shiftl b7 8 + Z.shiftl b6 16 + Z.shiftl b5 24
                              + Z.shiftl b4 32 + Z.shiftl b3 40 + Z.shiftl b2 48
                              + Z.shiftl b1 56, r8)
                    | _ => None
                    end
              | _ => None
              end
        end
  end.

(** What [Write] and [Read] rely on for a first byte made of the six bits
    [x] and the length tag [k]: the tag is or-ed in without carry, and the
    byte gives back the length [n] and the six bits. *)
Definition first_byte_ok (k n x : Z) : bool :=
  (Z.lor x k =? x + k) &&
  (Z.shiftl 1 (Z.shiftr (Z.land (x + k) 192) 6) =? n) &&
  (Z.land (x + k) 63 =? x).

End quicvarint.

(** ** Streams *)

(** A stream object of the transport, known by its identity. *)
Definition handle : Type := nat.

(** [quic.Stream], [quic.SendStream] and [quic.ReceiveStream] values. *)
Definition quic_Stream : Type := option handle.
Definition quic_SendStream : Type := option handle.
Definition quic_ReceiveStream : Type := option handle.

(** Modelled from the spec: the stream wrappers [newStream],
    [newSendStream] and [newReceiveStream] are declared in a file that is
    not part of [conn.go].  A wrapper keeps the raw stream and the header
    prefix that is "transmitted before any caller-supplied payload";
    a stream wrapped "with no prefix" has the empty header. *)
Record stream : Type := newStream_ { stream_str : quic_Stream; stream_hdr : list Z }.
Record sendStream : Type :=
  newSendStream_ { sendStream_str : quic_SendStream; sendStream_hdr : list Z }.
Record receiveStream : Type := newReceiveStream_ { receiveStream_str : quic_ReceiveStream }.

(** The interface types [Stream], [SendStream], [ReceiveStream]. *)
Definition Stream : Type := option stream.
Definition SendStream : Type := option sendStream.
Definition ReceiveStream : Type := option receiveStream.

Definition newStream (str : quic_Stream) (hdr : list Z) : Stream :=
  Some (newStream_ str hdr).
Definition newSendStream (str : quic_SendStream) (hdr : list Z) : SendStream :=
  Some (newSendStream_ str hdr).
Definition newReceiveStream (str : quic_ReceiveStream) : ReceiveStream :=
  Some (newReceiveStream_ str).

(** ** The connection *)

(** The fields of [Conn] that the methods read or write.  [qconn] and
    [requestStr] are collaborators: what they answer is an argument of the
    operation that asks them.  The two mutexes only make the queue
    operations atomic, which every definition below is. *)
Record Conn : Type := mkConn {
  sessionID : Z;
  streamHdr : list Z;
  uniStreamHdr : list Z;
  ctx : Context;
  closeErr : error;
  closed : bool;
  acceptChan : bool;
  acceptQueue : list quic_Stream;
  acceptUniChan : bool;
  acceptUniQueue : list quic_ReceiveStream
}.

Definition set_ctx (v : Context) (c : Conn) : Conn :=
  mkConn (sessionID c) (streamHdr c) (uniStreamHdr c) v (closeErr c)
         (closed c) (acceptChan c) (acceptQueue c) (acceptUniChan c)
         (acceptUniQueue c).
Definition set_closeErr (v : error) (c : Conn) : Conn :=
  mkConn (sessionID c) (streamHdr c) (uniStreamHdr c) (ctx c) v
         (closed c) (acceptChan c) (acceptQueue c) (acceptUniChan c)
         (acceptUniQueue c).
Definition set_closed (v : bool) (c : Conn) : Conn :=
  mkConn (sessionID c) (streamHdr c) (uniStreamHdr c) (ctx c) (closeErr c)
         v (acceptChan c) (acceptQueue c) (acceptUniChan c)
         (acceptUniQueue c).
Definition set_acceptChan (v : bool) (c : Conn) : Conn :=
  mkConn (sessionID c) (streamHdr c) (uniStreamHdr c) (ctx c) (closeErr c)
         (closed c) v (acceptQueue c) (acceptUniChan c) (acceptUniQueue c).
Definition set_acceptQueue (v : list quic_Stream) (c : Conn) : Conn :=
  mkConn (sessionID c) (streamHdr c) (uniStreamHdr c) (ctx c) (closeErr c)
         (closed c) (acceptChan c) v (acceptUniChan c) (acceptUniQueue c).
Definition set_acceptUniChan (v : bool) (c : Conn) : Conn :=
  mkConn (sessionID c) (streamHdr c) (uniStreamHdr c) (ctx c) (closeErr c)
         (closed c) (acceptChan c) (acceptQueue c) v (acceptUniQueue c).
Definition set_acceptUniQueue (v : list quic_ReceiveStream) (c : Conn) : Conn :=
  mkConn (sessionID c) (streamHdr c) (uniStreamHdr c) (ctx c) (closeErr c)
         (closed c) (acceptChan c) (acceptQueue c) (acceptUniChan c) v.

(** ** Channels and [select] *)

(** [close(ch)] on a channel that is only closed; closing it twice panics
    ([None]). *)
Definition close_chan (is_closed : bool) : option bool :=
  if is_closed then None else Some true.

(** A non-blocking send on a channel of capacity one
    ([select { case ch <- struct{}{}: default: }]): the token is stored if
    the slot is free and dropped otherwise. *)
Definition try_send (token : bool) : bool :=
  if token then token else true.

(** A [select] without [default]: each case is its readiness and what
    happens if it is picked.  Any ready case may be picked; with no ready
    case the goroutine stays parked, which is the outcome [parked]. *)
Definition select {A : Type} (alts : list (bool * list A)%type)
    (parked : A) : list A :=
  if existsb fst alts
  then flat_map (fun alt : (bool * list A)%type => if fst alt then snd alt else [])
                alts
  else [parked].

(** How a call that may suspend ends, when nothing else touches the
    connection while it runs. *)
Inductive outcome (A : Type) : Type :=
| Returned (c : Conn) (res : A) (err : error)
| Parked (c : Conn)
| OutOfFuel.
Arguments Returned {A} c res err.
Arguments Parked {A} c.
Arguments OutOfFuel {A}.

Definition session_closed_prefix : string := "WebTransport session closed: ".

Definition bind {A B : Type} (x : option A) (f : A -> option B) : option B :=
  match x with
  | Some a => f a
  | None => None
  end.

Section WithStreamTypes.

(** The two stream-type tags are constants of the package declared
    outside [conn.go]. *)
Variable webTransportFrameType : Z.
Variable webTransportUniStreamType : Z.

(** [newConn], up to the [go] statement: the connection it returns.
    [None] is a panic of [quicvarint]. *)
Definition newConn (sessionID : Z) : option Conn :=
  bind (quicvarint.Len sessionID) (fun _ =>
  bind (quicvarint.Write [] webTransportUniStreamType) (fun buf =>
  bind (quicvarint.Write buf sessionID) (fun uniStreamHdr =>
  bind (quicvarint.Len sessionID) (fun _ =>
  bind (quicvarint.Write [] webTransportFrameType) (fun buf =>
  bind (quicvarint.Write buf sessionID) (fun streamHdr =>
  Some {| sessionID := sessionID;
          streamHdr := streamHdr;
          uniStreamHdr := uniStreamHdr;
          ctx := ctx_active;
          closeErr := None;
          closed := false;
          acceptChan := false;
          acceptQueue := [];
          acceptUniChan := false;
          acceptUniQueue := [] |})))))).

End WithStreamTypes.

(** What became of the goroutine running [handleConn]. *)
Inductive handler_result : Type :=
| handler_reading (c : Conn)
| handler_returned (c : Conn)
| handler_panicked.

(** [handleConn] against a reader whose successive [Read] calls answer
    [reads]; when the answers run out the goroutine is still in [Read]. *)
Fixpoint handleConn (reads : list error) (c : Conn) : handler_result :=
  match reads with
  | [] => handler_reading c
  | None :: reads' => handleConn reads' c
  | Some err :: _ =>
      let c := set_closeErr (Some (fmt_Errorf_w session_closed_prefix err)) c in
      match close_chan (closed c) with
      | Some ch => handler_returned (set_closed ch c)
      | None => handler_panicked
      end
  end.

(** The goroutine started by [newConn]:
    [defer ctxCancel(); c.handleConn()]. *)
Definition handler_goroutine (reads : list error) (c : Conn) : handler_result :=
  match handleConn reads c with
  | handler_returned c' => handler_returned (set_ctx (ctxCancel (ctx c')) c')
  | r => r
  end.

Definition isClosed (c : Conn) : bool := closed c.

Definition addStream (str : quic_Stream) (c : Conn) : Conn :=
  let c := set_acceptQueue (acceptQueue c ++ [str]) c in
  set_acceptChan (try_send (acceptChan c)) c.

Definition addUniStream (str : quic_ReceiveStream) (c : Conn) : Conn :=
  let c := set_acceptUniQueue (acceptUniQueue c ++ [str]) c in
  set_acceptUniChan (try_send (acceptUniChan c)) c.

Definition Context_ (c : Conn) : Context := ctx c.

(** Lines 129-135 of [AcceptStream]: the dequeue under [acceptMx]. *)
Definition dequeue (c : Conn) : (quic_Stream * Conn)%type :=
  match acceptQueue c with
  | str :: rest => (str, set_acceptQueue rest c)
  | [] => (None, c)
  end.

Definition dequeueUni (c : Conn) : (quic_ReceiveStream * Conn)%type :=
  match acceptUniQueue c with
  | str :: rest => (str, set_acceptUniQueue rest c)
  | [] => (None, c)
  end.

(** The [select] of [AcceptStream]; [again] is the recursive call. *)
Definition AcceptStream_select (again : Conn -> list (outcome Stream))
    (cctx : Context) (c : Conn) : list (outcome Stream) :=
  select [ (ctx_Done (ctx c), [Returned c None (closeErr c)]);
           (ctx_Done cctx, [Returned c None (ctx_Err cctx)]);
           (acceptChan c, again (set_acceptChan false c)) ]
         (Parked c).

Fixpoint AcceptStream (fuel : nat) (cctx : Context) (c : Conn)
    : list (outcome Stream) :=
  match fuel with
  | O => [OutOfFuel]
  | S fuel' =>
      if isClosed c then [Returned c None (closeErr c)]
      else
        let (str, c) := dequeue c in
        match str with
        | Some _ => [Returned c (newStream str []) None]
        | None => AcceptStream_select (AcceptStream fuel' cctx) cctx c
        end
  end.

Definition AcceptUniStream_select (again : Conn -> list (outcome ReceiveStream))
    (cctx : Context) (c : Conn) : list (outcome ReceiveStream) :=
  select [ (ctx_Done (ctx c), [Returned c None (closeErr c)]);
           (ctx_Done cctx, [Returned c None (ctx_Err cctx)]);
           (acceptUniChan c, again (set_acceptUniChan false c)) ]
         (Parked c).

Fixpoint AcceptUniStream (fuel : nat) (cctx : Context) (c : Conn)
    : list (outcome ReceiveStream) :=
  match fuel with
  | O => [OutOfFuel]
  | S fuel' =>
      if isClosed c then [Returned c None (closeErr c)]
      else
        let (str, c) := dequeueUni c in
        match str with
        | Some _ => [Returned c (newReceiveStream str) None]
        | None => AcceptUniStream_select (AcceptUniStream fuel' cctx) cctx c
        end
  end.

(** What the transport ([qconn]) answers to the four ways of asking it for
    a stream. *)
Record StreamCreator : Type := {
  qconn_OpenStream : (quic_Stream * error)%type;
  qconn_OpenStreamSync : Context -> (quic_Stream * error)%type;
  qconn_OpenUniStream : (quic_SendStream * error)%type;
  qconn_OpenUniStreamSync : Context -> (quic_SendStream * error)%type
}.

Definition OpenStream (qconn : StreamCreator) (c : Conn) : (Stream * error)%type :=
  if isClosed c then (None, closeErr c)
  else
    let (str, err) := qconn_OpenStream qconn in
    match err with
    | Some _ => (None, err)
    | None => (newStream str (streamHdr c), None)
    end.

Definition OpenStreamSync (qconn : StreamCreator) (cctx : Context) (c : Conn)
    : (Stream * error)%type :=
  if isClosed c then (None, closeErr c)
  else
    let (str, err) := qconn_OpenStreamSync qconn cctx in
    match err with
    | Some _ => (None, err)
    | None => (newStream str (streamHdr c), None)
    end.

Definition OpenUniStream (qconn : StreamCreator) (c : Conn) : (SendStream * error)%type :=
  if isClosed c then (None, closeErr c)
  else
    let (str, err) := qconn_OpenUniStream qconn in
    match err with
    | Some _ => (None, err)
    | None => (newSendStream str (uniStreamHdr c), None)
    end.

Definition OpenUniStreamSync (qconn : StreamCreator) (cctx : Context) (c : Conn)
    : (SendStream * error)%type :=
  if isClosed c then (None, closeErr c)
  else
    let (str, err) := qconn_OpenUniStreamSync qconn cctx in
    match err with
    | Some _ => (None, err)
    | None => (newSendStream str (uniStreamHdr c), None)
    end.

(** [Close] returns nil and touches nothing. *)
Definition Close (c : Conn) : (Conn * error)%type := (c, None).

(** ** Sequences of accept calls *)

(** Puts a result in front of the results a sequence of calls returns. *)
Definition push_result {A : Type} (res : A) (o : outcome (list A))
    : outcome (list A) :=
  match o with
  | Returned c rs err => Returned c (res :: rs) err
  | Parked c => Parked c
  | OutOfFuel => OutOfFuel
  end.

(** One accept call per context of [cctxs], each started when the previous
    one has returned; the streams are collected in call order and the
    sequence stops at the first call that fails, parks or runs out of
    fuel. *)
Fixpoint accept_each {A : Type} (accept : Context -> Conn -> list (outcome A))
    (cctxs : list Context) (c : Conn) : list (outcome (list A)) :=
  match cctxs with
  | [] => [Returned c [] None]
  | cctx :: cctxs' =>
      flat_map (fun o : outcome A =>
                  match o with
                  | Returned c' res None =>
                      map (push_result res) (accept_each accept cctxs' c')
                  | Returned c' _ (Some e) => [Returned c' [] (Some e)]
                  | Parked c' => [Parked c']
                  | OutOfFuel => [OutOfFuel]
                  end)
               (accept cctx c)
  end.

(** A caller that pushes streams and accepts them, one call after the
    other. *)
Inductive call : Type :=
| call_addStream (h : handle)
| call_AcceptStream (cctx : Context).

Fixpoint run_calls (fuel : nat) (calls : list call) (c : Conn)
    : list (outcome (list Stream)) :=
  match calls with
  | [] => [Returned c [] None]
  | call_addStream h :: calls' => run_calls fuel calls' (addStream (Some h) c)
  | call_AcceptStream cctx :: calls' =>
      flat_map (fun o : outcome Stream =>
                  match o with
                  | Returned c' res None =>
                      map (push_result res) (run_calls fuel calls' c')
                  | Returned c' _ (Some e) => [Returned c' [] (Some e)]
                  | Parked c' => [Parked c']
                  | OutOfFuel => [OutOfFuel]
                  end)
               (AcceptStream fuel cctx c)
  end.

(** The streams pushed by a sequence of calls, in push order. *)
Fixpoint pushed (calls : list call) : list handle :=
  match calls with
  | [] => []
  | call_addStream h :: calls' => h :: pushed calls'
  | call_AcceptStream _ :: calls' => pushed calls'
  end.

(** What the accept calls of a sequence are due when [pending] streams are
    queued at its start; [None] when some accept call finds nothing. *)
Fixpoint due (calls : list call) (pending : list handle) : option (list handle) :=
  match calls with
  | [] => Some []
  | call_addStream h :: calls' => due calls' (pending ++ [h])
  | call_AcceptStream _ :: calls' =>
      match pending with
      | [] => None
      | h :: pending' => option_map (cons h) (due calls' pending')
      end
  end.

(** ** The session as a transition system *)

(** Where the goroutine of [newConn] stands: in [Read] (line 81), before
    [close(c.closed)] (line 83, [closeErr] assigned), before the deferred
    [ctxCancel()] (line 71, [handleConn] returned), or gone. *)
Inductive handler_pc : Type :=
| pc_Read
| pc_close
| pc_ctxCancel
| pc_exited.

Record Session : Type := mkSession { conn : Conn; handler : handler_pc }.

(** The atomic actions on a connection, whoever performs them. *)
Inductive event : Type :=
| ev_Read (err : error)
| ev_close
| ev_ctxCancel
| ev_addStream (str : quic_Stream)
| ev_addUniStream (str : quic_ReceiveStream)
| ev_dequeue
| ev_dequeueUni
| ev_recv_acceptChan
| ev_recv_acceptUniChan
| ev_Close.

(** One action; [None] when the action cannot happen in this state or
    panics. *)
Definition step (s : Session) (ev : event) : option Session :=
  let c := conn s in
  match ev with
  | ev_Read err =>
      match handler s with
      | pc_Read =>
          match err with
          | None => Some s
          | Some e =>
              Some (mkSession
                      (set_closeErr (Some (fmt_Errorf_w session_closed_prefix e)) c)
                      pc_close)
          end
      | _ => None
      end
  | ev_close =>
      match handler s with
      | pc_close =>
          bind (close_chan (closed c))
               (fun ch => Some (mkSession (set_closed ch c) pc_ctxCancel))
      | _ => None
      end
  | ev_ctxCancel =>
      match handler s with
      | pc_ctxCancel => Some (mkSession (set_ctx (ctxCancel (ctx c)) c) pc_exited)
      | _ => None
      end
  | ev_addStream str => Some (mkSession (addStream str c) (handler s))
  | ev_addUniStream str => Some (mkSession (addUniStream str c) (handler s))
  | ev_dequeue => Some (mkSession (snd (dequeue c)) (handler s))
  | ev_dequeueUni => Some (mkSession (snd (dequeueUni c)) (handler s))
  | ev_recv_acceptChan =>
      if acceptChan c
      then Some (mkSession (set_acceptChan false c) (handler s))
      else None
  | ev_recv_acceptUniChan =>
      if acceptUniChan c
      then Some (mkSession (set_acceptUniChan false c) (handler s))
      else None
  | ev_Close => Some (mkSession (fst (Close c)) (handler s))
  end.

Fixpoint run (s : Session) (evs : list event) : option Session :=
  match evs with
  | [] => Some s
  | ev :: evs' => bind (step s ev) (fun s' => run s' evs')
  end.

(** The session right after [newConn] returned [c]. *)
Definition start (c : Conn) : Session := mkSession c pc_Read.

(** The states of the sessions that [newConn] creates. *)
Definition reachable (s : Session) : Prop :=
  exists frameType uniStreamType id c0 evs,
    newConn frameType uniStreamType id = Some c0 /\
    run (start c0) evs = Some s.

(** What the handler's position says about the closure fields. *)
Definition closure_inv (s : Session) : Prop :=
  match handler s with
  | pc_Read =>
      closeErr (conn s) = None /\ closed (conn s) = false /\
      ctx (conn s) = ctx_active
  | pc_close =>
      (exists e, closeErr (conn s) = Some (fmt_Errorf_w session_closed_prefix e)) /\
      closed (conn s) = false /\ ctx (conn s) = ctx_active
  | pc_ctxCancel =>
      (exists e, closeErr (conn s) = Some (fmt_Errorf_w session_closed_prefix e)) /\
      closed (conn s) = true /\ ctx (conn s) = ctx_active
  | pc_exited =>
      (exists e, closeErr (conn s) = Some (fmt_Errorf_w session_closed_prefix e)) /\
      closed (conn s) = true /\ ctx (conn s) = ctx_finished context_Canceled
  end.

(** A call returns exactly one of a value and an error. *)
Definition exactly_one {A : Type} (res : option A) (err : error) : Prop :=
  (res = None /\ err <> None) \/ (res <> None /\ err = None).

(** Pushing several streams, one [addStream] call after the other. *)
Definition addStreams (strs : list quic_Stream) (c : Conn) : Conn :=
  fold_left (fun c' str => addStream str c') strs c.

Definition addUniStreams (strs : list quic_ReceiveStream) (c : Conn) : Conn :=
  fold_left (fun c' str => addUniStream str c') strs c.

(** The wrappers the accept calls hand out for raw streams. *)
Definition accepted (h : handle) : Stream := newStream (Some h) [].
Definition acceptedUni (h : handle) : ReceiveStream := newReceiveStream (Some h).

(** The handler has executed [close(c.closed)]. *)
Definition handler_past_close (s : Session) : Prop :=
  handler s = pc_ctxCancel \/ handler s = pc_exited.

(** [closeErr] is assigned whenever the closed signal or the lifetime
    context has fired. *)
Definition closeErr_assigned (c : Conn) : Prop :=
  closed c = true \/ ctx_Done (ctx c) = true -> closeErr c <> None.

(** [c'] is [c] up to the token of [acceptChan] (resp. [acceptUniChan]),
    which may have been received. *)
Definition same_up_to_token (c c' : Conn) : Prop :=
  c' = c \/ (acceptChan c = true /\ c' = set_acceptChan false c).

Definition same_up_to_uni_token (c c' : Conn) : Prop :=
  c' = c \/ (acceptUniChan c = true /\ c' = set_acceptUniChan false c).

(** The connection an outcome leaves behind. *)
Definition outcome_conn {A : Type} (o : outcome A) : option Conn :=
  match o with
  | Returned c _ _ => Some c
  | Parked c => Some c
  | OutOfFuel => None
  end.

(** A byte. *)
Definition is_byte (b : Z) : Prop := 0 <= b < 256.

(** Nil entries of a queue. *)
Definition all_nil (strs : list (option handle)) : Prop :=
  Forall (fun str => str = None) strs.

(** [c'] differs from [c] at most in the bidirectional queue and its
    notification channel (resp. in the unidirectional ones). *)
Definition accept_frame (c c' : Conn) : Prop :=
  c' = set_acceptChan (acceptChan c') (set_acceptQueue (acceptQueue c') c).

Definition acceptUni_frame (c c' : Conn) : Prop :=
  c' = set_acceptUniChan (acceptUniChan c') (set_acceptUniQueue (acceptUniQueue c') c).

(** The entries that the dequeues of an execution take from the
    bidirectional queue, in the order they are taken. *)
Fixpoint taken (s : Session) (evs : list event) : list quic_Stream :=
  match evs with
  | [] => []
  | ev :: evs' =>
      match step s ev with
      | None => []
      | Some s' =>
          match ev, acceptQueue (conn s) with
          | ev_dequeue, str :: _ => str :: taken s' evs'
          | _, _ => taken s' evs'
          end
      end
  end.

Fixpoint takenUni (s : Session) (evs : list event) : list quic_ReceiveStream :=
  match evs with
  | [] => []
  | ev :: evs' =>
      match step s ev with
      | None => []
      | Some s' =>
          match ev, acceptUniQueue (conn s) with
          | ev_dequeueUni, str :: _ => str :: takenUni s' evs'
          | _, _ => takenUni s' evs'
          end
      end
  end.

(** The entries that the pushes of an execution add to each queue. *)
Fixpoint added (evs : list event) : list quic_Stream :=
  match evs with
  | [] => []
  | ev_addStream str :: evs' => str :: added evs'
  | _ :: evs' => added evs'
  end.

Fixpoint addedUni (evs : list event) : list quic_ReceiveStream :=
  match evs with
  | [] => []
  | ev_addUniStream str :: evs' => str :: addedUni evs'
  | _ :: evs' => addedUni evs'
  end.

(** The capacity of the buffer in which [newConn] builds a header:
    [2+quicvarint.Len(uint64(c.sessionID))]. *)
Definition header_capacity (sessionID : Z) : option Z :=
  bind (quicvarint.Len sessionID) (fun n => Some (2 + n)).

(** The action [close(c.closed)]. *)
Definition is_close (ev : event) : bool :=
  match ev with
  | ev_close => true
  | _ => false
  end.

(** The first error among the answers of the reader, if there is one. *)
Fixpoint first_error (reads : list error) : error :=
  match reads with
  | [] => None
  | None :: reads' => first_error reads'
  | Some err :: _ => Some err
  end.

(** The answers up to and including the first error. *)
Fixpoint until_error (reads : list error) : list error :=
  match reads with
  | [] => []
  | None :: reads' => None :: until_error reads'
  | Some err :: _ => [Some err]
  end.

(** All six stream operations fail with [err] and leave [c] as it is. *)
Definition all_fail_with (err : error) (c : Conn) : Prop :=
  (forall fuel cctx, AcceptStream (S fuel) cctx c = [Returned c None err]) /\
  (forall fuel cctx, AcceptUniStream (S fuel) cctx c = [Returned c None err]) /\
  (forall qconn, OpenStream qconn c = (None, err)) /\
  (forall qconn cctx, OpenStreamSync qconn cctx c = (None, err)) /\
  (forall qconn, OpenUniStream qconn c = (None, err)) /\
  (forall qconn cctx, OpenUniStreamSync qconn cctx c = (None, err)).

(** ** A concrete session

    The session of identifier 17 with the tags 0x41 (bidirectional) and
    0x54 (unidirectional), and states it passes through. *)
Definition session17 : Conn :=
  {| sessionID := 17;
     streamHdr := [64; 65; 17];
     uniStreamHdr := [64; 84; 17];
     ctx := ctx_active;
     closeErr := None;
     closed := false;
     acceptChan := false;
     acceptQueue := [];
     acceptUniChan := false;
     acceptUniQueue := [] |}.

(** [session17] after one stream was pushed and accepted: the queue is
    empty again and the notification of the push is still in the channel. *)
Definition session17_drained : Conn := set_acceptChan true session17.

Definition session17_drainedUni : Conn := set_acceptUniChan true session17.

(** [session17] after the control stream ended with [io.EOF]. *)
Definition io_EOF : error_value := foreign_error "EOF".

Definition session17_closed : Conn :=
  set_ctx (ctx_finished context_Canceled)
    (set_closed true
       (set_closeErr (Some (fmt_Errorf_w session_closed_prefix io_EOF)) session17)).

(** A transport that hands out stream 7, and one that refuses. *)
Definition transport_ok : StreamCreator :=
  {| qconn_OpenStream := (Some 7%nat, None);
     qconn_OpenStreamSync := fun _ => (Some 7%nat, None);
     qconn_OpenUniStream := (Some 7%nat, None);
     qconn_OpenUniStreamSync := fun _ => (Some 7%nat, None) |}.

Definition too_many_streams : error_value := foreign_error "too many open streams".

Definition transport_failing : StreamCreator :=
  {| qconn_OpenStream := (None, Some too_many_streams);
     qconn_OpenStreamSync := fun _ => (None, Some too_many_streams);
     qconn_OpenUniStream := (None, Some too_many_streams);
     qconn_OpenUniStreamSync := fun _ => (None, Some too_many_streams) |}.

(** Session 17 with a nil entry and then stream 1 in its queue. *)
Definition session17_nil_then_1 : Conn :=
  addStream (Some 1%nat) (addStream None session17).

Definition session17_uni_nil_then_1 : Conn :=
  addUniStream (Some 1%nat) (addUniStream None session17).

(** [session17] between [close(c.closed)] and the deferred [ctxCancel()]
    of the handler goroutine. *)
Definition session17_closing : Conn := set_ctx ctx_active session17_closed.

(** [session17] with stream 1 queued, after a read of the control stream
    returned [io.EOF] and before the handler executes [close(c.closed)]. *)
Definition session17_read_failed : Conn :=
  set_closeErr (Some (fmt_Errorf_w session_closed_prefix io_EOF))
               (addStream (Some 1%nat) session17).

(** * Properties *)

(** ** Field bookkeeping *)

Lemma addStream_fields str c :
  acceptQueue (addStream str c) = acceptQueue c ++ [str] /\
  acceptChan (addStream str c) = true /\
  closed (addStream str c) = closed c /\
  closeErr (addStream str c) = closeErr c /\
  ctx (addStream str c) = ctx c /\
  acceptUniQueue (addStream str c) = acceptUniQueue c /\
  acceptUniChan (addStream str c) = acceptUniChan c.
Proof.
  destruct c as [? ? ? ? ? ? ch ? ? ?]; destruct ch; cbn; auto 10.
Qed.

Lemma addUniStream_fields str c :
  acceptUniQueue (addUniStream str c) = acceptUniQueue c ++ [str] /\
  acceptUniChan (addUniStream str c) = true /\
  closed (addUniStream str c) = closed c /\
  closeErr (addUniStream str c) = closeErr c /\
  ctx (addUniStream str c) = ctx c /\
  acceptQueue (addUniStream str c) = acceptQueue c /\
  acceptChan (addUniStream str c) = acceptChan c.
Proof.
  destruct c as [? ? ? ? ? ? ? ? ch ?]; destruct ch; cbn; auto 10.
Qed.

Lemma addStreams_fields strs : forall c,
  acceptQueue (addStreams strs c) = acceptQueue c ++ strs /\
  closed (addStreams strs c) = closed c.
Proof.
  induction strs as [|str strs IH]; intros c; cbn.
  - now rewrite app_nil_r.
  - destruct (IH (addStream str c)) as [Hq Hc].
    destruct (addStream_fields str c) as (Hq1 & _ & Hc1 & _).
    unfold addStreams in Hq, Hc. rewrite Hq, Hc, Hq1, Hc1.
    now rewrite <- app_assoc.
Qed.

Lemma addUniStreams_fields strs : forall c,
  acceptUniQueue (addUniStreams strs c) = acceptUniQueue c ++ strs /\
  closed (addUniStreams strs c) = closed c.
Proof.
  induction strs as [|str strs IH]; intros c; cbn.
  - now rewrite app_nil_r.
  - destruct (IH (addUniStream str c)) as [Hq Hc].
    destruct (addUniStream_fields str c) as (Hq1 & _ & Hc1 & _).
    unfold addUniStreams in Hq, Hc. rewrite Hq, Hc, Hq1, Hc1.
    now rewrite <- app_assoc.
Qed.

(** ** An accept call on a non-empty queue *)

Lemma AcceptStream_head fuel cctx c h rest :
  closed c = false ->
  acceptQueue c = Some h :: rest ->
  AcceptStream (S fuel) cctx c =
  [Returned (set_acceptQueue rest c) (accepted h) None].
Proof.
  intros Hopen Hq. cbn. unfold isClosed, dequeue. now rewrite Hopen, Hq.
Qed.

Lemma AcceptUniStream_head fuel cctx c h rest :
  closed c = false ->
  acceptUniQueue c = Some h :: rest ->
  AcceptUniStream (S fuel) cctx c =
  [Returned (set_acceptUniQueue rest c) (acceptedUni h) None].
Proof.
  intros Hopen Hq. cbn. unfold isClosed, dequeueUni. now rewrite Hopen, Hq.
Qed.

Lemma set_acceptQueue_same c : set_acceptQueue (acceptQueue c) c = c.
Proof. now destruct c. Qed.

Lemma set_acceptUniQueue_same c : set_acceptUniQueue (acceptUniQueue c) c = c.
Proof. now destruct c. Qed.

(** As many accept calls as there are streams at the head of the queue
    take exactly these streams, in queue order. *)
Lemma accept_each_drains fuel : forall hs cctxs c rest,
  closed c = false ->
  acceptQueue c = map Some hs ++ rest ->
  List.length cctxs = List.length hs ->
  accept_each (AcceptStream (S fuel)) cctxs c =
  [Returned (set_acceptQueue rest c) (map accepted hs) None].
Proof.
  induction hs as [|h hs IH]; intros [|cctx cctxs] c rest Hopen Hq Hlen;
    try discriminate.
  - cbn in *. subst rest. now rewrite set_acceptQueue_same.
  - cbn [accept_each].
    rewrite (AcceptStream_head fuel cctx c h (map Some hs ++ rest) Hopen Hq).
    cbn [flat_map]. rewrite app_nil_r.
    rewrite (IH cctxs (set_acceptQueue (map Some hs ++ rest) c) rest).
    + now destruct c.
    + now destruct c.
    + now destruct c.
    + cbn in Hlen. congruence.
Qed.

Lemma acceptUni_each_drains fuel : forall hs cctxs c rest,
  closed c = false ->
  acceptUniQueue c = map Some hs ++ rest ->
  List.length cctxs = List.length hs ->
  accept_each (AcceptUniStream (S fuel)) cctxs c =
  [Returned (set_acceptUniQueue rest c) (map acceptedUni hs) None].
Proof.
  induction hs as [|h hs IH]; intros [|cctx cctxs] c rest Hopen Hq Hlen;
    try discriminate.
  - cbn in *. subst rest. now rewrite set_acceptUniQueue_same.
  - cbn [accept_each].
    rewrite (AcceptUniStream_head fuel cctx c h (map Some hs ++ rest) Hopen Hq).
    cbn [flat_map]. rewrite app_nil_r.
    rewrite (IH cctxs (set_acceptUniQueue (map Some hs ++ rest) c) rest).
    + now destruct c.
    + now destruct c.
    + now destruct c.
    + cbn in Hlen. congruence.
Qed.

(** ** Delivery in push order *)

(** C1: streams P1..Pn pushed by [addStream] (resp. [addUniStream]) into the
    empty accept queue of an open session and followed by n [AcceptStream]
    (resp. [AcceptUniStream]) calls are returned as P1..Pn, in push order:
    the n calls have this one outcome, every stream appears once in it, and
    the queue is empty afterwards. *)
Theorem accept_returns_pushes_in_order
    (fuel : nat) (c : Conn) (ps : list handle) (cctxs : list Context) :
  closed c = false ->
  List.length cctxs = List.length ps ->
  (acceptQueue c = [] ->
   accept_each (AcceptStream (S fuel)) cctxs (addStreams (map Some ps) c) =
   [Returned (set_acceptQueue [] (addStreams (map Some ps) c))
             (map accepted ps) None]) /\
  (acceptUniQueue c = [] ->
   accept_each (AcceptUniStream (S fuel)) cctxs (addUniStreams (map Some ps) c) =
   [Returned (set_acceptUniQueue [] (addUniStreams (map Some ps) c))
             (map acceptedUni ps) None]).
Proof.
  intros Hopen Hlen. split; intros Hempty.
  - destruct (addStreams_fields (map Some ps) c) as [Hq Hc].
    apply accept_each_drains; trivial.
    + congruence.
    + rewrite Hq, Hempty. cbn. now rewrite app_nil_r.
  - destruct (addUniStreams_fields (map Some ps) c) as [Hq Hc].
    apply acceptUni_each_drains; trivial.
    + congruence.
    + rewrite Hq, Hempty. cbn. now rewrite app_nil_r.
Qed.

Lemma accept_returns_pushes_in_order_witness :
  accept_each (AcceptStream 1) [ctx_active; ctx_active]
              (addStreams [Some 1%nat; Some 2%nat] session17) =
  [Returned (set_acceptQueue [] (addStreams [Some 1%nat; Some 2%nat] session17))
            [accepted 1%nat; accepted 2%nat] None] /\
  accept_each (AcceptUniStream 1) [ctx_active; ctx_active]
              (addUniStreams [Some 1%nat; Some 2%nat] session17) =
  [Returned (set_acceptUniQueue [] (addUniStreams [Some 1%nat; Some 2%nat] session17))
            [acceptedUni 1%nat; acceptedUni 2%nat] None].
Proof.
  destruct (accept_returns_pushes_in_order
              0 session17 [1%nat; 2%nat] [ctx_active; ctx_active]
              eq_refl eq_refl) as [Hbidi Huni].
  split; [exact (Hbidi eq_refl) | exact (Huni eq_refl)].
Defined.

(** ** No loss when nobody is waiting *)

(** C4: a stream pushed by [addStream] on an open session while no accept
    call is pending is appended to the queue and a notification is left in
    [acceptChan]; whatever is pushed after it, the accept calls that follow
    first return the streams queued before it and the next [AcceptStream]
    call returns the stream itself. *)
Theorem push_without_waiter_is_delivered
    (fuel : nat) (c : Conn) (earlier : list handle) (p : handle)
    (later : list quic_Stream) (cctxs : list Context) (cctx : Context) :
  closed c = false ->
  acceptQueue c = map Some earlier ->
  List.length cctxs = List.length earlier ->
  acceptQueue (addStream (Some p) c) = acceptQueue c ++ [Some p] /\
  acceptChan (addStream (Some p) c) = true /\
  exists c1 c2,
    accept_each (AcceptStream (S fuel)) cctxs
                (addStreams later (addStream (Some p) c)) =
    [Returned c1 (map accepted earlier) None] /\
    AcceptStream (S fuel) cctx c1 = [Returned c2 (accepted p) None].
Proof.
  intros Hopen Hq Hlen.
  destruct (addStream_fields (Some p) c) as (Hq1 & Hch1 & Hc1 & _).
  destruct (addStreams_fields later (addStream (Some p) c)) as [Hq2 Hc2].
  split; [exact Hq1 | split; [exact Hch1 |]].
  set (c' := addStreams later (addStream (Some p) c)) in *.
  exists (set_acceptQueue (Some p :: later) c'),
         (set_acceptQueue later (set_acceptQueue (Some p :: later) c')).
  split.
  - apply accept_each_drains; trivial.
    + congruence.
    + rewrite Hq2, Hq1, Hq. now rewrite <- app_assoc.
  - apply AcceptStream_head.
    + destruct c'; cbn in *; congruence.
    + now destruct c'.
Qed.

Lemma push_without_waiter_is_delivered_witness :
  acceptQueue (addStream (Some 5%nat) session17) =
  acceptQueue session17 ++ [Some 5%nat] /\
  acceptChan (addStream (Some 5%nat) session17) = true /\
  exists c1 c2,
    accept_each (AcceptStream 1) [] (addStreams [] (addStream (Some 5%nat) session17)) =
    [Returned c1 (map accepted []) None] /\
    AcceptStream 1 ctx_active c1 = [Returned c2 (accepted 5%nat) None].
Proof.
  exact (push_without_waiter_is_delivered
           0 session17 [] 5%nat [] [] ctx_active eq_refl eq_refl eq_refl).
Defined.

(** ** Executions *)

Lemma run_app s evs1 evs2 :
  run s (evs1 ++ evs2) = bind (run s evs1) (fun s' => run s' evs2).
Proof.
  revert s. induction evs1 as [|ev evs1 IH]; intros s; cbn; trivial.
  destruct (step s ev); cbn; auto.
Qed.

Lemma run_app_inv s evs1 evs2 s2 :
  run s (evs1 ++ evs2) = Some s2 ->
  exists s1, run s evs1 = Some s1 /\ run s1 evs2 = Some s2.
Proof.
  rewrite run_app. destruct (run s evs1) as [s1|]; cbn; [eauto | discriminate].
Qed.

(** A property kept by every action holds along every execution. *)
Lemma run_invariant (P : Session -> Prop) :
  (forall s ev s', P s -> step s ev = Some s' -> P s') ->
  forall evs s s', P s -> run s evs = Some s' -> P s'.
Proof.
  intros Hstep. induction evs as [|ev evs IH]; intros s s' HP Hrun; cbn in Hrun.
  - now injection Hrun as <-.
  - destruct (step s ev) as [s1|] eqn:Hs; cbn in Hrun; [| discriminate].
    eauto.
Qed.

(** The same for a relation between the first and the last state. *)
Lemma run_invariant2 (R : Session -> Session -> Prop) :
  (forall s, R s s) ->
  (forall s s1 ev s2, R s s1 -> step s1 ev = Some s2 -> R s s2) ->
  forall evs s s', run s evs = Some s' -> R s s'.
Proof.
  intros Hrefl Hstep evs s s' Hrun.
  apply (run_invariant (R s) (Hstep s) evs s s'); auto.
Qed.

Ltac step_cases s ev H :=
  destruct s as [[? ? ? ? ? ? ? [|? ?] ? [|? ?]] []]; destruct ev as [[?|]| | | | | | | | |];
  cbn in H |- *; unfold close_chan in H; cbn in H; try discriminate H;
  repeat match type of H with
         | context [match ?b with true => _ | false => _ end] =>
             destruct b eqn:?; cbn in H; try discriminate H
         end;
  try (injection H as <-); cbn.

Lemma step_keeps_headers s ev s' :
  step s ev = Some s' ->
  sessionID (conn s') = sessionID (conn s) /\
  streamHdr (conn s') = streamHdr (conn s) /\
  uniStreamHdr (conn s') = uniStreamHdr (conn s).
Proof.
  intros H. step_cases s ev H; auto.
Qed.

Lemma run_keeps_headers evs s s' :
  run s evs = Some s' ->
  sessionID (conn s') = sessionID (conn s) /\
  streamHdr (conn s') = streamHdr (conn s) /\
  uniStreamHdr (conn s') = uniStreamHdr (conn s).
Proof.
  apply (run_invariant2
           (fun s s' => sessionID (conn s') = sessionID (conn s) /\
                        streamHdr (conn s') = streamHdr (conn s) /\
                        uniStreamHdr (conn s') = uniStreamHdr (conn s))); auto.
  intros s0 s1 ev s2 (H1 & H2 & H3) Hs.
  destruct (step_keeps_headers _ _ _ Hs) as (K1 & K2 & K3). repeat split; congruence.
Qed.

Lemma step_closure_inv s ev s' :
  closure_inv s -> step s ev = Some s' -> closure_inv s'.
Proof.
  intros Hinv H. unfold closure_inv in *.
  step_cases s ev H; cbn in Hinv;
    intuition (subst; cbn; eauto; try discriminate).
Qed.

Lemma newConn_fields frameType uniStreamType id c0 :
  newConn frameType uniStreamType id = Some c0 ->
  sessionID c0 = id /\
  ctx c0 = ctx_active /\ closeErr c0 = None /\ closed c0 = false /\
  acceptChan c0 = false /\ acceptQueue c0 = [] /\
  acceptUniChan c0 = false /\ acceptUniQueue c0 = [].
Proof.
  unfold newConn. intros H.
  repeat match type of H with
         | bind ?x _ = Some _ => destruct x; cbn [bind] in H; [| discriminate H]
         end.
  injection H as <-. cbn. repeat split; trivial.
Qed.

Lemma reachable_closure_inv s : reachable s -> closure_inv s.
Proof.
  intros (ft & ut & id & c0 & evs & Hnew & Hrun).
  apply (run_invariant closure_inv step_closure_inv evs (start c0) s); trivial.
  destruct (newConn_fields _ _ _ _ Hnew) as (_ & Hctx & Herr & Hcl & _).
  cbn. auto.
Qed.

Lemma reachable_run s evs s' : reachable s -> run s evs = Some s' -> reachable s'.
Proof.
  intros (ft & ut & id & c0 & evs0 & Hnew & Hrun) Hrun'.
  exists ft, ut, id, c0, (evs0 ++ evs). split; trivial.
  rewrite run_app, Hrun. exact Hrun'.
Qed.

(** ** Header prefixes *)

Lemma Write_appends w i :
  quicvarint.Write w i =
  match quicvarint.varint i with
  | Some b => Some (w ++ b)
  | None => None
  end.
Proof.
  unfold quicvarint.varint, quicvarint.Write.
  repeat match goal with
         | |- context [if ?cond then _ else _] => destruct cond
         end; reflexivity.
Qed.

Lemma varint_defined i :
  i <= quicvarint.maxVarInt8 -> exists b, quicvarint.varint i = Some b.
Proof.
  intros Hi. unfold quicvarint.varint, quicvarint.Write.
  repeat match goal with
         | |- context [if ?cond then _ else _] => destruct cond eqn:?
         end; eauto.
  apply Z.leb_gt in Heqb2. lia.
Qed.

Lemma varint_panics i :
  quicvarint.maxVarInt8 < i ->
  quicvarint.varint i = None /\ quicvarint.Len i = None.
Proof.
  intros Hi. unfold quicvarint.varint, quicvarint.Write, quicvarint.Len.
  assert (H8 : (i <=? quicvarint.maxVarInt8) = false) by (apply Z.leb_gt; lia).
  assert (H4 : (i <=? quicvarint.maxVarInt4) = false)
    by (apply Z.leb_gt; unfold quicvarint.maxVarInt4, quicvarint.maxVarInt8 in *; lia).
  assert (H2 : (i <=? quicvarint.maxVarInt2) = false)
    by (apply Z.leb_gt; unfold quicvarint.maxVarInt2, quicvarint.maxVarInt8 in *; lia).
  assert (H1 : (i <=? quicvarint.maxVarInt1) = false)
    by (apply Z.leb_gt; unfold quicvarint.maxVarInt1, quicvarint.maxVarInt8 in *; lia).
  now rewrite H1, H2, H4, H8.
Qed.

Lemma Len_defined i :
  i <= quicvarint.maxVarInt8 -> exists n, quicvarint.Len i = Some n.
Proof.
  intros Hi. unfold quicvarint.Len.
  repeat match goal with
         | |- context [if ?cond then _ else _] => destruct cond eqn:?
         end; eauto.
  apply Z.leb_gt in Heqb2. lia.
Qed.

(** The number of bytes of an encoding is what [Len] announces. *)
Lemma Len_varint i :
  quicvarint.Len i =
  match quicvarint.varint i with
  | Some bytes => Some (Z.of_nat (List.length bytes))
  | None => None
  end.
Proof.
  unfold quicvarint.varint, quicvarint.Write, quicvarint.Len.
  repeat match goal with
         | |- context [if ?cond then _ else _] => destruct cond
         end; reflexivity.
Qed.

(** [newConn] panics on an identifier that does not fit into 62 bits. *)
Lemma newConn_panics frameType uniStreamType id :
  quicvarint.maxVarInt8 < id -> newConn frameType uniStreamType id = None.
Proof.
  intros Hid. unfold newConn.
  now rewrite (proj2 (varint_panics id Hid)).
Qed.

Lemma newConn_headers frameType uniStreamType id tagBidi tagUni idBytes :
  quicvarint.varint frameType = Some tagBidi ->
  quicvarint.varint uniStreamType = Some tagUni ->
  quicvarint.varint id = Some idBytes ->
  exists c0,
    newConn frameType uniStreamType id = Some c0 /\
    streamHdr c0 = tagBidi ++ idBytes /\
    uniStreamHdr c0 = tagUni ++ idBytes.
Proof.
  intros Hb Hu Hi. unfold newConn.
  rewrite Len_varint, Hi. cbn [bind].
  fold (quicvarint.varint uniStreamType). fold (quicvarint.varint frameType).
  rewrite Hu, Hb. cbn [bind]. rewrite !Write_appends, Hi. cbn [bind].
  eexists. split; [reflexivity |]. cbn. auto.
Qed.

(** What the four open calls attach to a stream they return. *)
Lemma open_attaches_headers qconn cctx c :
  (forall st, OpenStream qconn c = (Some st, None) ->
              stream_hdr st = streamHdr c) /\
  (forall st, OpenStreamSync qconn cctx c = (Some st, None) ->
              stream_hdr st = streamHdr c) /\
  (forall st, OpenUniStream qconn c = (Some st, None) ->
              sendStream_hdr st = uniStreamHdr c) /\
  (forall st, OpenUniStreamSync qconn cctx c = (Some st, None) ->
              sendStream_hdr st = uniStreamHdr c).
Proof.
  unfold OpenStream, OpenStreamSync, OpenUniStream, OpenUniStreamSync, isClosed.
  destruct (closed c);
    destruct (qconn_OpenStream qconn) as [? [?|]];
    destruct (qconn_OpenStreamSync qconn cctx) as [? [?|]];
    destruct (qconn_OpenUniStream qconn) as [? [?|]];
    destruct (qconn_OpenUniStreamSync qconn cctx) as [? [?|]];
    repeat split; intros st H; try discriminate H;
    unfold newStream, newSendStream in H; injection H as <-; reflexivity.
Qed.

(** On a session that is not closed, an open call to which the transport
    hands a stream returns that stream wrapped with the header of its
    direction. *)
Lemma open_wraps_with_header qconn cctx c :
  isClosed c = false ->
  (forall str, qconn_OpenStream qconn = (str, None) ->
               OpenStream qconn c = (newStream str (streamHdr c), None)) /\
  (forall str, qconn_OpenStreamSync qconn cctx = (str, None) ->
               OpenStreamSync qconn cctx c = (newStream str (streamHdr c), None)) /\
  (forall str, qconn_OpenUniStream qconn = (str, None) ->
               OpenUniStream qconn c = (newSendStream str (uniStreamHdr c), None)) /\
  (forall str, qconn_OpenUniStreamSync qconn cctx = (str, None) ->
               OpenUniStreamSync qconn cctx c =
               (newSendStream str (uniStreamHdr c), None)).
Proof.
  intros Hc. unfold OpenStream, OpenStreamSync, OpenUniStream, OpenUniStreamSync.
  rewrite Hc. repeat split; intros str Hq; now rewrite Hq.
Qed.

(** C2: for a session identifier N (and tags) in the range of the varint
    encoding, [newConn] returns a connection whose bidirectional header is
    varint(tagBidi) || varint(N) and whose unidirectional header is
    varint(tagUni) || varint(N); the two fields keep these bytes in every
    later state of the session; every stream an open call returns carries
    the header of its direction; and as long as the session is not closed,
    each open call to which the transport hands a stream returns that
    stream wrapped with this header. *)
Theorem header_prefix_is_tag_then_id (frameType uniStreamType N : Z) :
  0 <= frameType <= quicvarint.maxVarInt8 ->
  0 <= uniStreamType <= quicvarint.maxVarInt8 ->
  0 <= N <= quicvarint.maxVarInt8 ->
  exists c0 tagBidi tagUni idBytes,
    newConn frameType uniStreamType N = Some c0 /\
    quicvarint.varint frameType = Some tagBidi /\
    quicvarint.varint uniStreamType = Some tagUni /\
    quicvarint.varint N = Some idBytes /\
    streamHdr c0 = tagBidi ++ idBytes /\
    uniStreamHdr c0 = tagUni ++ idBytes /\
    forall evs s, run (start c0) evs = Some s ->
      streamHdr (conn s) = tagBidi ++ idBytes /\
      uniStreamHdr (conn s) = tagUni ++ idBytes /\
      forall qconn cctx,
        (forall st, OpenStream qconn (conn s) = (Some st, None) ->
                    stream_hdr st = tagBidi ++ idBytes) /\
        (forall st, OpenStreamSync qconn cctx (conn s) = (Some st, None) ->
                    stream_hdr st = tagBidi ++ idBytes) /\
        (forall st, OpenUniStream qconn (conn s) = (Some st, None) ->
                    sendStream_hdr st = tagUni ++ idBytes) /\
        (forall st, OpenUniStreamSync qconn cctx (conn s) = (Some st, None) ->
                    sendStream_hdr st = tagUni ++ idBytes) /\
        (isClosed (conn s) = false ->
         (forall str, qconn_OpenStream qconn = (str, None) ->
            OpenStream qconn (conn s) =
            (newStream str (tagBidi ++ idBytes), None)) /\
         (forall str, qconn_OpenStreamSync qconn cctx = (str, None) ->
            OpenStreamSync qconn cctx (conn s) =
            (newStream str (tagBidi ++ idBytes), None)) /\
         (forall str, qconn_OpenUniStream qconn = (str, None) ->
            OpenUniStream qconn (conn s) =
            (newSendStream str (tagUni ++ idBytes), None)) /\
         (forall str, qconn_OpenUniStreamSync qconn cctx = (str, None) ->
            OpenUniStreamSync qconn cctx (conn s) =
            (newSendStream str (tagUni ++ idBytes), None))).
Proof.
  intros [_ Hf] [_ Hu] [_ Hn].
  destruct (varint_defined _ Hf) as [tagBidi Hb].
  destruct (varint_defined _ Hu) as [tagUni Ht].
  destruct (varint_defined _ Hn) as [idBytes Hi].
  destruct (newConn_headers _ _ _ _ _ _ Hb Ht Hi) as (c0 & Hnew & Hs & Hus).
  exists c0, tagBidi, tagUni, idBytes.
  do 6 (split; [assumption |]).
  intros evs s Hrun.
  destruct (run_keeps_headers _ _ _ Hrun) as (_ & K1 & K2). cbn in K1, K2.
  rewrite <- Hs, <- Hus, <- K1, <- K2.
  split; [reflexivity | split; [reflexivity |]].
  intros qconn cctx.
  destruct (open_attaches_headers qconn cctx (conn s)) as (A1 & A2 & A3 & A4).
  do 4 (split; [assumption |]).
  intros Hopen. exact (open_wraps_with_header qconn cctx (conn s) Hopen).
Qed.

Lemma header_prefix_is_tag_then_id_witness :
  exists c0 tagBidi tagUni idBytes,
    newConn 65 84 17 = Some c0 /\
    quicvarint.varint 65 = Some tagBidi /\
    quicvarint.varint 84 = Some tagUni /\
    quicvarint.varint 17 = Some idBytes /\
    streamHdr c0 = tagBidi ++ idBytes /\
    uniStreamHdr c0 = tagUni ++ idBytes /\
    forall evs s, run (start c0) evs = Some s ->
      streamHdr (conn s) = tagBidi ++ idBytes /\
      uniStreamHdr (conn s) = tagUni ++ idBytes /\
      forall qconn cctx,
        (forall st, OpenStream qconn (conn s) = (Some st, None) ->
                    stream_hdr st = tagBidi ++ idBytes) /\
        (forall st, OpenStreamSync qconn cctx (conn s) = (Some st, None) ->
                    stream_hdr st = tagBidi ++ idBytes) /\
        (forall st, OpenUniStream qconn (conn s) = (Some st, None) ->
                    sendStream_hdr st = tagUni ++ idBytes) /\
        (forall st, OpenUniStreamSync qconn cctx (conn s) = (Some st, None) ->
                    sendStream_hdr st = tagUni ++ idBytes) /\
        (isClosed (conn s) = false ->
         (forall str, qconn_OpenStream qconn = (str, None) ->
            OpenStream qconn (conn s) =
            (newStream str (tagBidi ++ idBytes), None)) /\
         (forall str, qconn_OpenStreamSync qconn cctx = (str, None) ->
            OpenStreamSync qconn cctx (conn s) =
            (newStream str (tagBidi ++ idBytes), None)) /\
         (forall str, qconn_OpenUniStream qconn = (str, None) ->
            OpenUniStream qconn (conn s) =
            (newSendStream str (tagUni ++ idBytes), None)) /\
         (forall str, qconn_OpenUniStreamSync qconn cctx = (str, None) ->
            OpenUniStreamSync qconn cctx (conn s) =
            (newSendStream str (tagUni ++ idBytes), None))).
Proof.
  apply (header_prefix_is_tag_then_id 65 84 17);
    unfold quicvarint.maxVarInt8; lia.
Defined.

(** The session of the scenario: identifier 17. *)
Example newConn_17 : newConn 65 84 17 = Some session17.
Proof. reflexivity. Qed.

Example session17_uni_header :
  OpenUniStream transport_ok session17 =
  (newSendStream (Some 7%nat) [64; 84; 17], None).
Proof. reflexivity. Qed.

(** ** Operations on a closed session *)

Lemma closed_all_fail c : closed c = true -> all_fail_with (closeErr c) c.
Proof.
  intros Hc. unfold all_fail_with.
  repeat split; intros; cbn;
    unfold OpenStream, OpenStreamSync, OpenUniStream, OpenUniStreamSync, isClosed;
    now rewrite Hc.
Qed.

(** ** Errors of the open calls *)

(** C7: each of [OpenStream], [OpenStreamSync], [OpenUniStream] and
    [OpenUniStreamSync] returns no stream and the session's terminal error
    when the session is closed; when it is not closed and the transport
    answers with an error, the call returns no stream and that very error. *)
Theorem open_calls_propagate_errors (qconn : StreamCreator) (cctx : Context) (c : Conn) :
  (isClosed c = true ->
   OpenStream qconn c = (None, closeErr c) /\
   OpenStreamSync qconn cctx c = (None, closeErr c) /\
   OpenUniStream qconn c = (None, closeErr c) /\
   OpenUniStreamSync qconn cctx c = (None, closeErr c)) /\
  (isClosed c = false ->
   (forall e, snd (qconn_OpenStream qconn) = Some e ->
              OpenStream qconn c = (None, Some e)) /\
   (forall e, snd (qconn_OpenStreamSync qconn cctx) = Some e ->
              OpenStreamSync qconn cctx c = (None, Some e)) /\
   (forall e, snd (qconn_OpenUniStream qconn) = Some e ->
              OpenUniStream qconn c = (None, Some e)) /\
   (forall e, snd (qconn_OpenUniStreamSync qconn cctx) = Some e ->
              OpenUniStreamSync qconn cctx c = (None, Some e))).
Proof.
  unfold OpenStream, OpenStreamSync, OpenUniStream, OpenUniStreamSync.
  split; intros Hc; rewrite Hc.
  - auto.
  - repeat split; intros e He.
    + destruct (qconn_OpenStream qconn) as [str err]; cbn in He; now subst err.
    + destruct (qconn_OpenStreamSync qconn cctx) as [str err]; cbn in He; now subst err.
    + destruct (qconn_OpenUniStream qconn) as [str err]; cbn in He; now subst err.
    + destruct (qconn_OpenUniStreamSync qconn cctx) as [str err]; cbn in He; now subst err.
Qed.

Lemma open_calls_propagate_errors_witness :
  (OpenStream transport_ok session17_closed = (None, closeErr session17_closed) /\
   OpenStreamSync transport_ok ctx_active session17_closed =
     (None, closeErr session17_closed) /\
   OpenUniStream transport_ok session17_closed = (None, closeErr session17_closed) /\
   OpenUniStreamSync transport_ok ctx_active session17_closed =
     (None, closeErr session17_closed)) /\
  OpenStream transport_failing session17 = (None, Some too_many_streams) /\
  OpenStreamSync transport_failing ctx_active session17 = (None, Some too_many_streams) /\
  OpenUniStream transport_failing session17 = (None, Some too_many_streams) /\
  OpenUniStreamSync transport_failing ctx_active session17 =
    (None, Some too_many_streams).
Proof.
  split.
  - exact (proj1 (open_calls_propagate_errors transport_ok ctx_active session17_closed)
                 eq_refl).
  - destruct (proj2 (open_calls_propagate_errors transport_failing ctx_active session17)
                    eq_refl) as (H1 & H2 & H3 & H4).
    exact (conj (H1 _ eq_refl) (conj (H2 _ eq_refl) (conj (H3 _ eq_refl) (H4 _ eq_refl)))).
Defined.

(** ** The handler goroutine and closure *)

(** Once the handler has left its read loop, no action writes [closeErr]
    and the handler never reads again. *)
Lemma step_after_read_error s ev s' :
  handler s <> pc_Read ->
  step s ev = Some s' ->
  handler s' <> pc_Read /\
  closeErr (conn s') = closeErr (conn s) /\
  (closed (conn s) = true -> closed (conn s') = true).
Proof.
  intros Hh H. step_cases s ev H; cbn in Hh; repeat split;
    try discriminate; try congruence.
Qed.

Lemma run_after_read_error evs : forall s s',
  handler s <> pc_Read ->
  run s evs = Some s' ->
  handler s' <> pc_Read /\
  closeErr (conn s') = closeErr (conn s) /\
  (closed (conn s) = true -> closed (conn s') = true).
Proof.
  induction evs as [|ev evs IH]; intros s s' Hh Hrun; cbn in Hrun.
  - injection Hrun as <-. auto.
  - destruct (step s ev) as [s1|] eqn:Hs; cbn in Hrun; [| discriminate].
    destruct (step_after_read_error _ _ _ Hh Hs) as (H1 & H2 & H3).
    destruct (IH _ _ H1 Hrun) as (K1 & K2 & K3).
    repeat split; trivial; [congruence | auto].
Qed.

(** After [close(c.closed)] the handler only has its [ctxCancel] left:
    [closed] and [closeErr] keep their values, a finished lifetime context
    stays as it is, and neither a second [close] nor a [Read] happens. *)
Lemma step_past_close s ev s' :
  handler_past_close s ->
  step s ev = Some s' ->
  handler_past_close s' /\
  closeErr (conn s') = closeErr (conn s) /\
  closed (conn s') = closed (conn s) /\
  (ctx_Done (ctx (conn s)) = true -> ctx (conn s') = ctx (conn s)) /\
  is_close ev = false /\
  (forall err, ev <> ev_Read err).
Proof.
  unfold handler_past_close. intros [Hh|Hh] H;
    step_cases s ev H; cbn in Hh; try discriminate Hh;
    repeat split; auto; try discriminate;
    cbn; intros Hd; match goal with x : Context |- _ => destruct x; [discriminate Hd | reflexivity] end.
Qed.

Lemma run_past_close evs : forall s s',
  handler_past_close s ->
  run s evs = Some s' ->
  handler_past_close s' /\
  closeErr (conn s') = closeErr (conn s) /\
  closed (conn s') = closed (conn s) /\
  (ctx_Done (ctx (conn s)) = true -> ctx (conn s') = ctx (conn s)) /\
  filter is_close evs = [] /\
  (forall err, ~ In (ev_Read err) evs).
Proof.
  induction evs as [|ev evs IH]; intros s s' Hh Hrun; cbn in Hrun.
  - injection Hrun as <-. cbn. auto 10.
  - destruct (step s ev) as [s1|] eqn:Hs; cbn in Hrun; [| discriminate].
    destruct (step_past_close _ _ _ Hh Hs) as (H1 & H2 & H3 & H4 & H5 & H6).
    destruct (IH _ _ H1 Hrun) as (K1 & K2 & K3 & K4 & K5 & K6).
    repeat split; trivial; try congruence.
    + intros Hd. rewrite <- (H4 Hd). apply K4. now rewrite (H4 Hd).
    + cbn. now rewrite H5.
    + intros err [Hin|Hin]; [exact (H6 err Hin) | exact (K6 err Hin)].
Qed.

(** In any execution, from any state, [close(c.closed)] runs at most once. *)
Lemma close_at_most_once evs : forall s s',
  run s evs = Some s' -> (List.length (filter is_close evs) <= 1)%nat.
Proof.
  induction evs as [|ev evs IH]; intros s s' Hrun; cbn in Hrun |- *.
  - lia.
  - destruct (step s ev) as [s1|] eqn:Hs; cbn in Hrun; [| discriminate].
    destruct (is_close ev) eqn:Hev; [| eauto].
    destruct ev; try discriminate Hev.
    assert (Hpast : handler_past_close s1).
    { destruct s as [c []]; cbn in Hs; try discriminate Hs.
      destruct (close_chan (closed c)); cbn in Hs; [| discriminate Hs].
      injection Hs as <-. now left. }
    destruct (run_past_close _ _ _ Hpast Hrun) as (_ & _ & _ & _ & Hnone & _).
    rewrite Hnone. cbn. lia.
Qed.

(** On a session made by [newConn], the handler's [close] never panics. *)
Lemma handler_close_succeeds s :
  reachable s -> handler s = pc_close ->
  exists s', step s ev_close = Some s' /\ closed (conn s') = true.
Proof.
  intros Hr Hh. pose proof (reachable_closure_inv s Hr) as Hinv.
  unfold closure_inv in Hinv. rewrite Hh in Hinv. destruct Hinv as (_ & Hc & _).
  destruct s as [c h]. cbn in *. subst h. unfold close_chan. rewrite Hc. cbn.
  eexists. split; [reflexivity |]. now destruct c.
Qed.

Lemma closed_is_past_close s :
  closure_inv s -> closed (conn s) = true -> handler_past_close s.
Proof.
  unfold closure_inv, handler_past_close.
  destruct (handler s); intros (He & Hc & Hx) Hcl; auto; congruence.
Qed.

Lemma closure_inv_closeErr s :
  closure_inv s ->
  closed (conn s) = true \/ ctx_Done (ctx (conn s)) = true ->
  exists e, closeErr (conn s) = Some (fmt_Errorf_w session_closed_prefix e).
Proof.
  unfold closure_inv.
  destruct (handler s); intros (He & Hc & Hx) [H|H]; trivial;
    rewrite ?Hc, ?Hx in H; discriminate H.
Qed.

(** C8: in every execution of a session made by [newConn], once the closed
    signal has fired ([isClosed] is true) the session stays closed, the
    recorded terminal error is there and keeps its value, a finished
    lifetime context stays finished, the execution contains no further
    [close(c.closed)] and no further control-stream read; and over a whole
    execution [close(c.closed)] runs at most once. *)
Theorem closure_is_irreversible (s : Session) (evs : list event) (s' : Session) :
  reachable s ->
  isClosed (conn s) = true ->
  run s evs = Some s' ->
  isClosed (conn s') = true /\
  closeErr (conn s') = closeErr (conn s) /\
  closeErr (conn s') <> None /\
  (ctx_Done (ctx (conn s)) = true -> ctx (conn s') = ctx (conn s)) /\
  ~ In ev_close evs /\
  (forall err, ~ In (ev_Read err) evs) /\
  (forall evs0 s0, run s0 evs0 = Some s ->
                   (List.length (filter is_close (evs0 ++ evs)) <= 1)%nat).
Proof.
  intros Hr Hc Hrun. unfold isClosed in *.
  pose proof (reachable_closure_inv s Hr) as Hinv.
  pose proof (closed_is_past_close s Hinv Hc) as Hpast.
  destruct (run_past_close _ _ _ Hpast Hrun) as (_ & He & Hcl & Hctx & Hno & Hrd).
  destruct (closure_inv_closeErr s Hinv (or_introl Hc)) as [e Herr].
  repeat split; trivial; try congruence.
  - intros Hin.
    assert (Hf : In ev_close (filter is_close evs)) by (apply filter_In; auto).
    now rewrite Hno in Hf.
  - intros evs0 s0 Hrun0. apply (close_at_most_once _ s0 s').
    rewrite run_app, Hrun0. exact Hrun.
Qed.

Lemma session17_closed_reachable : reachable (mkSession session17_closed pc_exited).
Proof.
  exists 65, 84, 17, session17,
    [ev_Read None; ev_Read (Some io_EOF); ev_close; ev_ctxCancel].
  split; reflexivity.
Defined.

Lemma closure_is_irreversible_witness :
  isClosed session17_closed = true /\
  closeErr (addStream (Some 3%nat) session17_closed) = closeErr session17_closed /\
  isClosed (addStream (Some 3%nat) session17_closed) = true.
Proof.
  destruct (closure_is_irreversible
              (mkSession session17_closed pc_exited)
              [ev_addStream (Some 3%nat); ev_Close]
              (mkSession (addStream (Some 3%nat) session17_closed) pc_exited)
              session17_closed_reachable eq_refl eq_refl)
    as (H1 & H2 & _).
  exact (conj eq_refl (conj H2 H1)).
Defined.

(** ** The terminal error *)

Lemma step_read_error s e s1 :
  step s (ev_Read (Some e)) = Some s1 ->
  handler s = pc_Read /\ handler s1 = pc_close /\
  closeErr (conn s1) = Some (fmt_Errorf_w session_closed_prefix e).
Proof.
  destruct s as [c []]; cbn; intros H; try discriminate H.
  injection H as <-. now destruct c.
Qed.

Lemma step_close s s1 :
  step s ev_close = Some s1 ->
  handler s1 = pc_ctxCancel /\ closed (conn s1) = true /\
  closeErr (conn s1) = closeErr (conn s).
Proof.
  destruct s as [c []]; cbn; intros H; try discriminate H.
  destruct (close_chan (closed c)) as [ch|] eqn:Hch; cbn in H; [| discriminate H].
  injection H as <-. unfold close_chan in Hch.
  destruct (closed c); [discriminate Hch |]. injection Hch as <-. now destruct c.
Qed.

Lemma run_closed_all_fail s evs s' :
  handler s <> pc_Read ->
  closed (conn s) = true ->
  run s evs = Some s' ->
  all_fail_with (closeErr (conn s)) (conn s').
Proof.
  intros Hh Hc Hrun.
  destruct (run_after_read_error _ _ _ Hh Hrun) as (_ & He & Hcl).
  rewrite <- He. apply closed_all_fail. auto.
Qed.

(** C3 fails on the code as it is stated: between the return of the
    failing read (line 81) and [close(c.closed)] (line 83) the terminal
    error is recorded but [isClosed] is still false.  In this reachable
    state of session 17, [OpenStream] returns a stream and [AcceptStream]
    returns the queued stream 1, where the claim has them fail. *)
Lemma calls_before_closed_signal_succeed :
  newConn 65 84 17 = Some session17 /\
  run (start session17) [ev_addStream (Some 1%nat); ev_Read (Some io_EOF)] =
    Some (mkSession session17_read_failed pc_close) /\
  closeErr session17_read_failed =
    Some (fmt_Errorf_w session_closed_prefix io_EOF) /\
  isClosed session17_read_failed = false /\
  OpenStream transport_ok session17_read_failed =
    (newStream (Some 7%nat) [64; 65; 17], None) /\
  AcceptStream 1 ctx_active session17_read_failed =
    [Returned (set_acceptQueue [] session17_read_failed) (accepted 1%nat) None] /\
  ~ all_fail_with (closeErr session17_read_failed) session17_read_failed.
Proof.
  repeat split.
  intros (_ & _ & Hopen & _). specialize (Hopen transport_ok). discriminate Hopen.
Qed.

(** C3 as amended: when the control-stream read returns the error [e], the
    session records the error made from [e] (its cause is [e]) as its
    terminal error, and no later action changes it; once the handler has
    then fired the closed signal, in every later state [AcceptStream],
    [AcceptUniStream], [OpenStream], [OpenStreamSync], [OpenUniStream] and
    [OpenUniStreamSync] all return no stream and this same error. *)
Theorem read_error_fails_every_later_call
    (s : Session) (e : error_value) (evs1 : list event) (s1 : Session) :
  run s (ev_Read (Some e) :: evs1) = Some s1 ->
  closeErr (conn s1) = Some (fmt_Errorf_w session_closed_prefix e) /\
  errors_Unwrap (fmt_Errorf_w session_closed_prefix e) = Some e /\
  forall evs2 s',
    run s1 (ev_close :: evs2) = Some s' ->
    closeErr (conn s') = Some (fmt_Errorf_w session_closed_prefix e) /\
    isClosed (conn s') = true /\
    all_fail_with (Some (fmt_Errorf_w session_closed_prefix e)) (conn s').
Proof.
  intros Hrun. cbn [run] in Hrun.
  destruct (step s (ev_Read (Some e))) as [s0|] eqn:Hs0; cbn [bind] in Hrun;
    [| discriminate Hrun].
  destruct (step_read_error _ _ _ Hs0) as (_ & Hh0 & He0).
  assert (Hn0 : handler s0 <> pc_Read) by (rewrite Hh0; discriminate).
  destruct (run_after_read_error _ _ _ Hn0 Hrun) as (_ & He1 & _).
  assert (Herr1 : closeErr (conn s1) = Some (fmt_Errorf_w session_closed_prefix e))
    by congruence.
  split; [exact Herr1 |]. split; [reflexivity |].
  intros evs2 s' Hrun2. cbn [run] in Hrun2.
  destruct (step s1 ev_close) as [s3|] eqn:Hs3; cbn [bind] in Hrun2;
    [| discriminate Hrun2].
  destruct (step_close _ _ Hs3) as (Hh3 & Hc3 & He3).
  assert (Hn3 : handler s3 <> pc_Read) by (rewrite Hh3; discriminate).
  destruct (run_after_read_error _ _ _ Hn3 Hrun2) as (_ & He4 & Hc4).
  assert (Herr : closeErr (conn s') = Some (fmt_Errorf_w session_closed_prefix e))
    by congruence.
  split; [exact Herr |]. split.
  - exact (Hc4 Hc3).
  - rewrite <- Herr. apply closed_all_fail. exact (Hc4 Hc3).
Qed.

Lemma read_error_fails_every_later_call_witness :
  closeErr (set_closeErr (Some (fmt_Errorf_w session_closed_prefix io_EOF)) session17) =
    Some (fmt_Errorf_w session_closed_prefix io_EOF) /\
  errors_Unwrap (fmt_Errorf_w session_closed_prefix io_EOF) = Some io_EOF /\
  closeErr session17_closed = Some (fmt_Errorf_w session_closed_prefix io_EOF) /\
  isClosed session17_closed = true /\
  all_fail_with (Some (fmt_Errorf_w session_closed_prefix io_EOF)) session17_closed.
Proof.
  destruct (read_error_fails_every_later_call
              (start session17) io_EOF
              [ev_addStream (Some 1%nat); ev_dequeue; ev_recv_acceptChan]
              (mkSession
                 (set_closeErr (Some (fmt_Errorf_w session_closed_prefix io_EOF))
                               session17)
                 pc_close)
              eq_refl) as (H1 & H2 & H3).
  exact (conj H1 (conj H2 (H3 [ev_ctxCancel]
                              (mkSession session17_closed pc_exited) eq_refl))).
Defined.

(** ** [Close] *)

(** C5 fails on the code: after [Close()] on the open session 17 the
    session is still open; [OpenStream] returns a stream and [AcceptStream]
    returns the queued stream, where the claim has them fail. *)
Lemma Close_leaves_session_open :
  isClosed session17 = false /\
  snd (Close session17) = None /\
  isClosed (fst (Close session17)) = false /\
  OpenStream transport_ok (fst (Close session17)) =
    (newStream (Some 7%nat) [64; 65; 17], None) /\
  AcceptStream 1 ctx_active (fst (Close (addStream (Some 1%nat) session17))) =
    [Returned session17_drained (accepted 1%nat) None] /\
  ~ all_fail_with (closeErr (fst (Close session17))) (fst (Close session17)).
Proof.
  repeat split.
  intros (_ & _ & Hopen & _). specialize (Hopen transport_ok). discriminate Hopen.
Qed.

Lemma step_while_reading s ev s1 :
  handler s = pc_Read ->
  closed (conn s) = false ->
  step s ev = Some s1 ->
  (exists e, ev = ev_Read (Some e)) \/
  (handler s1 = pc_Read /\ closed (conn s1) = false).
Proof.
  intros Hh Hc H. step_cases s ev H; cbn in Hh, Hc; try discriminate Hh; eauto.
Qed.

Lemma step_closes_only_by_close s ev s1 :
  step s ev = Some s1 ->
  is_close ev = false ->
  closed (conn s1) = closed (conn s).
Proof.
  intros H Hev. step_cases s ev H; try discriminate Hev; reflexivity.
Qed.

Lemma run_closes_only_by_close evs : forall s s',
  closed (conn s) = false ->
  run s evs = Some s' ->
  closed (conn s') = true ->
  In ev_close evs.
Proof.
  induction evs as [|ev evs IH]; intros s s' Hc Hrun Hc'; cbn [run] in Hrun.
  - injection Hrun as <-. congruence.
  - destruct (step s ev) as [s1|] eqn:Hs; cbn [bind] in Hrun; [| discriminate Hrun].
    destruct (is_close ev) eqn:Hev.
    + destruct ev; try discriminate Hev. now left.
    + right. apply (IH s1 s'); trivial.
      rewrite (step_closes_only_by_close _ _ _ Hs Hev). exact Hc.
Qed.

(** A session whose handler is reading gets closed only after a read of
    the control stream has failed and the handler has fired the closed
    signal; the recorded terminal error is made from the error of that
    read. *)
Lemma closed_only_by_read_error evs : forall s s',
  handler s = pc_Read ->
  closed (conn s) = false ->
  run s evs = Some s' ->
  closed (conn s') = true ->
  exists e, In (ev_Read (Some e)) evs /\ In ev_close evs /\
            closeErr (conn s') = Some (fmt_Errorf_w session_closed_prefix e).
Proof.
  induction evs as [|ev evs IH]; intros s s' Hh Hc Hrun Hc'.
  - cbn in Hrun. injection Hrun as <-. congruence.
  - pose proof (run_closes_only_by_close _ _ _ Hc Hrun Hc') as Hclose.
    cbn [run] in Hrun.
    destruct (step s ev) as [s1|] eqn:Hs; cbn [bind] in Hrun; [| discriminate Hrun].
    destruct (step_while_reading _ _ _ Hh Hc Hs) as [[e ->]|[Hh1 Hc1]].
    + exists e. split; [now left |]. split; [exact Hclose |].
      destruct (step_read_error _ _ _ Hs) as (_ & Hh1 & He1).
      assert (Hn : handler s1 <> pc_Read) by (rewrite Hh1; discriminate).
      destruct (run_after_read_error _ _ _ Hn Hrun) as (_ & He & _). congruence.
    + destruct (IH s1 s' Hh1 Hc1 Hrun Hc') as (e & Hin & _ & He).
      exists e. split; [now right |]. split; [exact Hclose | exact He].
Qed.

(** C5 as amended: [Close()] returns nil and leaves every field of the
    session as it was, so it is the identity step of the session and an
    open session stays open.  A session is closed only through a failure of
    the control-stream read: in every execution from an open session whose
    handler is reading, a closed state comes after a [Read] that returned an
    error and the handler's [close(c.closed)], and its terminal error is
    made from that error.  On a session that is closed, every Open*/Accept*
    operation after [Close()] fails with the terminal error recorded before
    it. *)
Theorem Close_changes_nothing (s : Session) :
  Close (conn s) = (conn s, None) /\
  step s ev_Close = Some s /\
  isClosed (fst (Close (conn s))) = isClosed (conn s) /\
  (isClosed (conn s) = true ->
   all_fail_with (closeErr (conn s)) (fst (Close (conn s)))) /\
  (handler s = pc_Read -> isClosed (conn s) = false ->
   forall evs s', run s evs = Some s' -> isClosed (conn s') = true ->
     exists e, In (ev_Read (Some e)) evs /\ In ev_close evs /\
               closeErr (conn s') = Some (fmt_Errorf_w session_closed_prefix e)).
Proof.
  split; [reflexivity |]. split; [now destruct s |]. split; [reflexivity |]. split.
  - intros Hc. cbn. now apply closed_all_fail.
  - intros Hh Hc evs s' Hrun Hc'. exact (closed_only_by_read_error evs s s' Hh Hc Hrun Hc').
Qed.

Lemma Close_changes_nothing_witness :
  (Close session17_closed = (session17_closed, None) /\
   step (mkSession session17_closed pc_exited) ev_Close =
     Some (mkSession session17_closed pc_exited) /\
   isClosed (fst (Close session17_closed)) = isClosed session17_closed /\
   all_fail_with (closeErr session17_closed) (fst (Close session17_closed))) /\
  exists e,
    In (ev_Read (Some e)) [ev_Close; ev_Read (Some io_EOF); ev_Close; ev_close] /\
    In ev_close [ev_Close; ev_Read (Some io_EOF); ev_Close; ev_close] /\
    closeErr session17_closing = Some (fmt_Errorf_w session_closed_prefix e).
Proof.
  destruct (Close_changes_nothing (mkSession session17_closed pc_exited))
    as (H1 & H2 & H3 & H4 & _).
  destruct (Close_changes_nothing (start session17)) as (_ & _ & _ & _ & H5).
  split.
  - exact (conj H1 (conj H2 (conj H3 (H4 eq_refl)))).
  - exact (H5 eq_refl eq_refl
              [ev_Close; ev_Read (Some io_EOF); ev_Close; ev_close]
              (mkSession session17_closing pc_ctxCancel) eq_refl eq_refl).
Defined.

Lemma handleConn_returned reads : forall c c',
  handleConn reads c = handler_returned c' ->
  exists e,
    first_error reads = Some e /\
    closed c = false /\
    c' = set_closed true
           (set_closeErr (Some (fmt_Errorf_w session_closed_prefix e)) c).
Proof.
  induction reads as [|[err|] reads IH]; intros c c' H; cbn in H.
  - discriminate H.
  - unfold close_chan in H. destruct c as [? ? ? ? ? cl ? ? ? ?]; cbn in H.
    destruct cl; [discriminate H |]. injection H as <-.
    exists err. repeat split.
  - cbn. auto.
Qed.

(** The run of [handleConn] is an execution of the session: the reads up
    to the first error, then [close(c.closed)]. *)
Lemma handleConn_execution reads : forall c c',
  handleConn reads c = handler_returned c' ->
  run (start c) (map ev_Read (until_error reads) ++ [ev_close]) =
  Some (mkSession c' pc_ctxCancel).
Proof.
  induction reads as [|[err|] reads IH]; intros c c' H; cbn in H.
  - discriminate H.
  - unfold close_chan in H. destruct c as [? ? ? ? ? cl ? ? ? ?]; cbn in H.
    destruct cl; [discriminate H |]. injection H as <-. reflexivity.
  - cbn. apply IH, H.
Qed.

(** C10: when [handleConn] returns because a read of the control stream
    gave the error [e], the recorded terminal error is the [fmt.Errorf]
    wrapping of [e]: its message is "WebTransport session closed: "
    followed by the message of [e], unwrapping it gives [e] back; and in
    every later state of the session every stream operation fails with this
    one value. *)
Theorem terminal_error_wraps_read_error
    (reads : list error) (c c' : Conn) :
  handleConn reads c = handler_returned c' ->
  exists e,
    first_error reads = Some e /\
    closeErr c' =
      Some (wrapError ("WebTransport session closed: " ++ Error e)%string e) /\
    (forall te, closeErr c' = Some te ->
       Error te = ("WebTransport session closed: " ++ Error e)%string /\
       errors_Unwrap te = Some e) /\
    forall evs s',
      run (mkSession c' pc_ctxCancel) evs = Some s' ->
      closeErr (conn s') = closeErr c' /\
      all_fail_with (closeErr c') (conn s').
Proof.
  intros H. destruct (handleConn_returned _ _ _ H) as (e & Hfirst & Hopen & ->).
  exists e. split; [exact Hfirst |].
  assert (Herr : closeErr (set_closed true
                   (set_closeErr (Some (fmt_Errorf_w session_closed_prefix e)) c)) =
                 Some (wrapError ("WebTransport session closed: " ++ Error e)%string e))
    by now destruct c.
  split; [exact Herr |]. split.
  - intros te Hte. rewrite Herr in Hte. injection Hte as <-. now cbn.
  - intros evs s' Hrun.
    assert (Hn : handler (mkSession (set_closed true
                   (set_closeErr (Some (fmt_Errorf_w session_closed_prefix e)) c))
                   pc_ctxCancel) <> pc_Read) by discriminate.
    split.
    + now destruct (run_after_read_error _ _ _ Hn Hrun) as (_ & He & _).
    + apply (run_closed_all_fail _ evs s' Hn); trivial.
Qed.

Lemma terminal_error_wraps_read_error_witness :
  exists e,
    first_error [None; Some io_EOF] = Some e /\
    closeErr (set_ctx ctx_active session17_closed) =
      Some (wrapError ("WebTransport session closed: " ++ Error e)%string e) /\
    (forall te, closeErr (set_ctx ctx_active session17_closed) = Some te ->
       Error te = ("WebTransport session closed: " ++ Error e)%string /\
       errors_Unwrap te = Some e) /\
    forall evs s',
      run (mkSession (set_ctx ctx_active session17_closed) pc_ctxCancel) evs = Some s' ->
      closeErr (conn s') = closeErr (set_ctx ctx_active session17_closed) /\
      all_fail_with (closeErr (set_ctx ctx_active session17_closed)) (conn s').
Proof.
  exact (terminal_error_wraps_read_error
           [None; Some io_EOF] session17 (set_ctx ctx_active session17_closed) eq_refl).
Defined.

Example session17_terminal_message :
  option_map Error (closeErr session17_closed) =
  Some "WebTransport session closed: EOF"%string.
Proof. reflexivity. Qed.

(** ** One result or one error *)

Lemma in_select {A : Type} (alts : list (bool * list A)) (parked x : A) :
  In x (select alts parked) ->
  (x = parked /\ existsb fst alts = false) \/
  exists alt, In alt alts /\ fst alt = true /\ In x (snd alt).
Proof.
  unfold select. destruct (existsb fst alts) eqn:Hex.
  - intros Hin. right. apply in_flat_map in Hin. destruct Hin as (alt & Halt & Hx).
    exists alt. destruct (fst alt); [auto | contradiction].
  - intros [<-|[]]. now left.
Qed.

Lemma closeErr_assigned_dequeue c :
  closeErr_assigned c -> closeErr_assigned (snd (dequeue c)).
Proof.
  unfold dequeue. destruct (acceptQueue c); trivial.
Qed.

Lemma closeErr_assigned_dequeueUni c :
  closeErr_assigned c -> closeErr_assigned (snd (dequeueUni c)).
Proof.
  unfold dequeueUni. destruct (acceptUniQueue c); trivial.
Qed.

Lemma AcceptStream_exactly_one fuel : forall cctx c c' res err,
  closeErr_assigned c ->
  In (Returned c' res err) (AcceptStream fuel cctx c) ->
  exactly_one res err.
Proof.
  induction fuel as [|fuel IH]; intros cctx c c' res err Hc Hin; cbn in Hin.
  - destruct Hin as [Hin|[]]. discriminate Hin.
  - unfold isClosed in Hin. destruct (closed c) eqn:Hcl.
    + destruct Hin as [Hin|[]]. injection Hin as <- <- <-.
      left. split; trivial. apply Hc. now left.
    + pose proof (closeErr_assigned_dequeue c Hc) as Hc1.
      destruct (dequeue c) as [[h|] c1]; cbn [snd] in Hc1.
      * destruct Hin as [Hin|[]]. injection Hin as <- <- <-.
        right. split; [discriminate | trivial].
      * apply in_select in Hin. destruct Hin as [[Hin _]|(alt & Halt & Hready & Hin)].
        { discriminate Hin. }
        destruct Halt as [<-|[<-|[<-|[]]]]; cbn [fst snd] in Hready, Hin.
        -- destruct Hin as [Hin|[]]. injection Hin as <- <- <-.
           left. split; trivial. apply Hc1. now right.
        -- destruct Hin as [Hin|[]]. injection Hin as <- <- <-.
           left. split; trivial. destruct cctx; [discriminate Hready | discriminate].
        -- apply (IH cctx (set_acceptChan false c1) c' res err); trivial.
Qed.

Lemma AcceptUniStream_exactly_one fuel : forall cctx c c' res err,
  closeErr_assigned c ->
  In (Returned c' res err) (AcceptUniStream fuel cctx c) ->
  exactly_one res err.
Proof.
  induction fuel as [|fuel IH]; intros cctx c c' res err Hc Hin; cbn in Hin.
  - destruct Hin as [Hin|[]]. discriminate Hin.
  - unfold isClosed in Hin. destruct (closed c) eqn:Hcl.
    + destruct Hin as [Hin|[]]. injection Hin as <- <- <-.
      left. split; trivial. apply Hc. now left.
    + pose proof (closeErr_assigned_dequeueUni c Hc) as Hc1.
      destruct (dequeueUni c) as [[h|] c1]; cbn [snd] in Hc1.
      * destruct Hin as [Hin|[]]. injection Hin as <- <- <-.
        right. split; [discriminate | trivial].
      * apply in_select in Hin. destruct Hin as [[Hin _]|(alt & Halt & Hready & Hin)].
        { discriminate Hin. }
        destruct Halt as [<-|[<-|[<-|[]]]]; cbn [fst snd] in Hready, Hin.
        -- destruct Hin as [Hin|[]]. injection Hin as <- <- <-.
           left. split; trivial. apply Hc1. now right.
        -- destruct Hin as [Hin|[]]. injection Hin as <- <- <-.
           left. split; trivial. destruct cctx; [discriminate Hready | discriminate].
        -- apply (IH cctx (set_acceptUniChan false c1) c' res err); trivial.
Qed.

Lemma Open_exactly_one qconn cctx c :
  closeErr_assigned c ->
  exactly_one (fst (OpenStream qconn c)) (snd (OpenStream qconn c)) /\
  exactly_one (fst (OpenStreamSync qconn cctx c)) (snd (OpenStreamSync qconn cctx c)) /\
  exactly_one (fst (OpenUniStream qconn c)) (snd (OpenUniStream qconn c)) /\
  exactly_one (fst (OpenUniStreamSync qconn cctx c))
              (snd (OpenUniStreamSync qconn cctx c)).
Proof.
  intros Hc.
  unfold OpenStream, OpenStreamSync, OpenUniStream, OpenUniStreamSync, isClosed.
  destruct (closed c) eqn:Hcl.
  - cbn. assert (closeErr c <> None) by (apply Hc; now left).
    unfold exactly_one. auto 10.
  - destruct (qconn_OpenStream qconn) as [? [?|]];
    destruct (qconn_OpenStreamSync qconn cctx) as [? [?|]];
    destruct (qconn_OpenUniStream qconn) as [? [?|]];
    destruct (qconn_OpenUniStreamSync qconn cctx) as [? [?|]];
    cbn; unfold exactly_one;
    repeat split;
    first [ left; split; [reflexivity | discriminate]
          | right; split; [discriminate | reflexivity] ].
Qed.

(** C9: in every state of a session made by [newConn], [closeErr] is
    non-nil as soon as the closed signal or the lifetime context has fired,
    and whatever one of the six Open*/Accept* operations returns is either a
    non-nil stream with a nil error or a nil stream with a non-nil error. *)
Theorem calls_return_stream_xor_error (s : Session) :
  reachable s ->
  (isClosed (conn s) = true \/ ctx_Done (ctx (conn s)) = true ->
   closeErr (conn s) <> None) /\
  (forall fuel cctx c' res err,
     In (Returned c' res err) (AcceptStream fuel cctx (conn s)) ->
     exactly_one res err) /\
  (forall fuel cctx c' res err,
     In (Returned c' res err) (AcceptUniStream fuel cctx (conn s)) ->
     exactly_one res err) /\
  (forall qconn cctx,
     exactly_one (fst (OpenStream qconn (conn s))) (snd (OpenStream qconn (conn s))) /\
     exactly_one (fst (OpenStreamSync qconn cctx (conn s)))
                 (snd (OpenStreamSync qconn cctx (conn s))) /\
     exactly_one (fst (OpenUniStream qconn (conn s)))
                 (snd (OpenUniStream qconn (conn s))) /\
     exactly_one (fst (OpenUniStreamSync qconn cctx (conn s)))
                 (snd (OpenUniStreamSync qconn cctx (conn s)))).
Proof.
  intros Hr. pose proof (reachable_closure_inv s Hr) as Hinv.
  assert (Hc : closeErr_assigned (conn s)).
  { intros H. destruct (closure_inv_closeErr s Hinv H) as [e He].
    rewrite He. discriminate. }
  split; [exact Hc |]. split; [| split].
  - intros fuel cctx c' res err. now apply AcceptStream_exactly_one.
  - intros fuel cctx c' res err. now apply AcceptUniStream_exactly_one.
  - intros qconn cctx. now apply Open_exactly_one.
Qed.

Lemma calls_return_stream_xor_error_witness :
  closeErr session17_closed <> None /\
  exactly_one (fst (OpenStream transport_ok session17_closed))
              (snd (OpenStream transport_ok session17_closed)).
Proof.
  destruct (calls_return_stream_xor_error
              (mkSession session17_closed pc_exited) session17_closed_reachable)
    as (Herr & _ & _ & Hopen).
  exact (conj (Herr (or_introl eq_refl)) (proj1 (Hopen transport_ok ctx_active))).
Defined.

(** ** Fuel *)

(** The recursive call of an accept call follows the receipt of the one
    token of the channel, so that, as long as nothing else touches the
    connection, a call is re-invoked at most once: two units of fuel are
    enough, and more fuel changes nothing. *)
Lemma AcceptStream_select_no_token again1 again2 cctx c :
  acceptChan c = false ->
  AcceptStream_select again1 cctx c = AcceptStream_select again2 cctx c.
Proof.
  intros H. unfold AcceptStream_select, select. cbn. now rewrite H.
Qed.

Lemma AcceptStream_no_token fuel cctx c :
  acceptChan c = false ->
  AcceptStream (S fuel) cctx c = AcceptStream 1 cctx c.
Proof.
  intros H. cbn. destruct (isClosed c); trivial.
  unfold dequeue. destruct (acceptQueue c) as [|[h|] rest]; trivial;
    apply AcceptStream_select_no_token; now destruct c.
Qed.

Lemma AcceptStream_unfold fuel cctx c :
  AcceptStream (S fuel) cctx c =
  if isClosed c then [Returned c None (closeErr c)]
  else
    let (str, c1) := dequeue c in
    match str with
    | Some _ => [Returned c1 (newStream str []) None]
    | None => AcceptStream_select (AcceptStream fuel cctx) cctx c1
    end.
Proof. reflexivity. Qed.

Lemma AcceptStream_select_again again1 again2 cctx c :
  again1 (set_acceptChan false c) = again2 (set_acceptChan false c) ->
  AcceptStream_select again1 cctx c = AcceptStream_select again2 cctx c.
Proof.
  intros H. unfold AcceptStream_select. now rewrite H.
Qed.

Lemma AcceptStream_fuel fuel cctx c :
  AcceptStream (S (S fuel)) cctx c = AcceptStream 2 cctx c.
Proof.
  rewrite (AcceptStream_unfold (S fuel)), (AcceptStream_unfold 1).
  destruct (isClosed c); trivial.
  destruct (dequeue c) as [[h|] c1]; trivial.
  apply AcceptStream_select_again, AcceptStream_no_token. now destruct c1.
Qed.

Lemma AcceptStream_1_has_fuel_unless_token cctx c :
  acceptChan c = false -> ~ In OutOfFuel (AcceptStream 1 cctx c).
Proof.
  intros H. cbn. destruct (isClosed c).
  - intros [Hin|[]]. discriminate Hin.
  - assert (Hch : acceptChan (snd (dequeue c)) = false).
    { unfold dequeue. destruct (acceptQueue c); trivial. }
    destruct (dequeue c) as [[h|] c1]; cbn [snd] in Hch.
    + intros [Hin|[]]. discriminate Hin.
    + intros Hin. apply in_select in Hin.
      destruct Hin as [[Hin _]|(alt & Halt & Hready & Hin)]; [discriminate Hin |].
      destruct Halt as [<-|[<-|[<-|[]]]]; cbn [fst snd] in Hready, Hin.
      * destruct Hin as [Hin|[]]. discriminate Hin.
      * destruct Hin as [Hin|[]]. discriminate Hin.
      * congruence.
Qed.

Lemma AcceptStream_has_fuel fuel cctx c :
  ~ In OutOfFuel (AcceptStream (S (S fuel)) cctx c).
Proof.
  rewrite AcceptStream_fuel, (AcceptStream_unfold 1). destruct (isClosed c).
  - intros [Hin|[]]. discriminate Hin.
  - destruct (dequeue c) as [[h|] c1].
    + intros [Hin|[]]. discriminate Hin.
    + intros Hin. apply in_select in Hin.
      destruct Hin as [[Hin _]|(alt & Halt & Hready & Hin)]; [discriminate Hin |].
      destruct Halt as [<-|[<-|[<-|[]]]]; cbn [fst snd] in Hready, Hin.
      * destruct Hin as [Hin|[]]. discriminate Hin.
      * destruct Hin as [Hin|[]]. discriminate Hin.
      * revert Hin. apply AcceptStream_1_has_fuel_unless_token. now destruct c1.
Qed.

Lemma AcceptUniStream_select_no_token again1 again2 cctx c :
  acceptUniChan c = false ->
  AcceptUniStream_select again1 cctx c = AcceptUniStream_select again2 cctx c.
Proof.
  intros H. unfold AcceptUniStream_select, select. cbn. now rewrite H.
Qed.

Lemma AcceptUniStream_no_token fuel cctx c :
  acceptUniChan c = false ->
  AcceptUniStream (S fuel) cctx c = AcceptUniStream 1 cctx c.
Proof.
  intros H. cbn. destruct (isClosed c); trivial.
  unfold dequeueUni. destruct (acceptUniQueue c) as [|[h|] rest]; trivial;
    apply AcceptUniStream_select_no_token; now destruct c.
Qed.

Lemma AcceptUniStream_unfold fuel cctx c :
  AcceptUniStream (S fuel) cctx c =
  if isClosed c then [Returned c None (closeErr c)]
  else
    let (str, c1) := dequeueUni c in
    match str with
    | Some _ => [Returned c1 (newReceiveStream str) None]
    | None => AcceptUniStream_select (AcceptUniStream fuel cctx) cctx c1
    end.
Proof. reflexivity. Qed.

Lemma AcceptUniStream_select_again again1 again2 cctx c :
  again1 (set_acceptUniChan false c) = again2 (set_acceptUniChan false c) ->
  AcceptUniStream_select again1 cctx c = AcceptUniStream_select again2 cctx c.
Proof.
  intros H. unfold AcceptUniStream_select. now rewrite H.
Qed.

Lemma AcceptUniStream_fuel fuel cctx c :
  AcceptUniStream (S (S fuel)) cctx c = AcceptUniStream 2 cctx c.
Proof.
  rewrite (AcceptUniStream_unfold (S fuel)), (AcceptUniStream_unfold 1).
  destruct (isClosed c); trivial.
  destruct (dequeueUni c) as [[h|] c1]; trivial.
  apply AcceptUniStream_select_again, AcceptUniStream_no_token. now destruct c1.
Qed.

(** ** Cancellation of an accept call *)

Lemma AcceptStream_cancelled fuel c cause :
  isClosed c = false -> ctx c = ctx_active -> acceptQueue c = [] ->
  AcceptStream (S (S fuel)) (ctx_finished cause) c =
  Returned c None (Some cause)
  :: (if acceptChan c
      then [Returned (set_acceptChan false c) None (Some cause)]
      else []).
Proof.
  intros Hc Hx Hq. rewrite AcceptStream_fuel.
  destruct c as [? ? ? ? ? ? ch ? ? ?]; cbn in Hc, Hx, Hq; subst.
  now destruct ch.
Qed.

Lemma AcceptUniStream_cancelled fuel c cause :
  isClosed c = false -> ctx c = ctx_active -> acceptUniQueue c = [] ->
  AcceptUniStream (S (S fuel)) (ctx_finished cause) c =
  Returned c None (Some cause)
  :: (if acceptUniChan c
      then [Returned (set_acceptUniChan false c) None (Some cause)]
      else []).
Proof.
  intros Hc Hx Hq. rewrite AcceptUniStream_fuel.
  destruct c as [? ? ? ? ? ? ? ? ch ?]; cbn in Hc, Hx, Hq; subst.
  now destruct ch.
Qed.

(** A call that finds the queue empty and no token waits in its [select];
    when the caller's context finishes there, the call returns the
    context's error and the connection is what it was. *)
Lemma AcceptStream_parks_then_cancelled fuel c cause :
  isClosed c = false -> ctx c = ctx_active -> acceptQueue c = [] ->
  acceptChan c = false ->
  AcceptStream (S fuel) ctx_active c = [Parked c] /\
  AcceptStream_select (AcceptStream fuel (ctx_finished cause)) (ctx_finished cause) c =
  [Returned c None (Some cause)].
Proof.
  intros Hc Hx Hq Hch.
  destruct c as [? ? ? ? ? ? ch ? ? ?]; cbn in Hc, Hx, Hq, Hch; subst.
  split; reflexivity.
Qed.

Lemma AcceptUniStream_parks_then_cancelled fuel c cause :
  isClosed c = false -> ctx c = ctx_active -> acceptUniQueue c = [] ->
  acceptUniChan c = false ->
  AcceptUniStream (S fuel) ctx_active c = [Parked c] /\
  AcceptUniStream_select (AcceptUniStream fuel (ctx_finished cause))
                         (ctx_finished cause) c =
  [Returned c None (Some cause)].
Proof.
  intros Hc Hx Hq Hch.
  destruct c as [? ? ? ? ? ? ? ? ch ?]; cbn in Hc, Hx, Hq, Hch; subst.
  split; reflexivity.
Qed.

Lemma session17_drained_reachable : reachable (mkSession session17_drained pc_Read).
Proof.
  exists 65, 84, 17, session17, [ev_addStream (Some 1%nat); ev_dequeue].
  split; reflexivity.
Defined.

(** C6 fails on the code where it says that no other state is modified.
    Session 17, after one stream was pushed and accepted, is open and its
    queue is empty.  An [AcceptStream] call whose context is cancelled has
    an outcome in which the connection is no longer the same: the pending
    notification has been received.  The same holds when the cancellation
    comes while the call waits: the call first receives the notification,
    finds the queue empty and parks, and returns the cancellation error
    from there. *)
Lemma cancelled_accept_receives_notification :
  reachable (mkSession session17_drained pc_Read) /\
  isClosed session17_drained = false /\
  acceptQueue session17_drained = [] /\
  In (Returned (set_acceptChan false session17_drained) None (Some context_Canceled))
     (AcceptStream 2 (ctx_finished context_Canceled) session17_drained) /\
  AcceptStream 2 ctx_active session17_drained =
    [Parked (set_acceptChan false session17_drained)] /\
  AcceptStream_select (AcceptStream 1 (ctx_finished context_Canceled))
                      (ctx_finished context_Canceled)
                      (set_acceptChan false session17_drained) =
    [Returned (set_acceptChan false session17_drained) None (Some context_Canceled)] /\
  set_acceptChan false session17_drained <> session17_drained.
Proof.
  split; [exact session17_drained_reachable |].
  repeat split.
  - cbn. auto.
  - discriminate.
Qed.

(** C6 as amended: on an open session whose queue is empty, an
    [AcceptStream] (resp. [AcceptUniStream]) call whose caller's context is
    cancelled returns, in each of its outcomes, no stream and the error of
    that context, which is none of the terminal errors a session records;
    the queue is unchanged and the connection is the same except that the
    token of [acceptChan] (resp. [acceptUniChan]), if there was one, may have
    been received; with no token in the channel the connection is unchanged,
    also when the cancellation comes while the call waits. *)
Theorem cancelled_accept_returns_cancellation
    (fuel : nat) (c : Conn) (cause : error_value) :
  isClosed c = false ->
  ctx c = ctx_active ->
  caller_context (ctx_finished cause) ->
  (forall e, cause <> fmt_Errorf_w session_closed_prefix e) /\
  (acceptQueue c = [] ->
   AcceptStream (S (S fuel)) (ctx_finished cause) c <> [] /\
   (forall o, In o (AcceptStream (S (S fuel)) (ctx_finished cause) c) ->
      exists c', o = Returned c' None (Some cause) /\
                 acceptQueue c' = acceptQueue c /\
                 same_up_to_token c c') /\
   (acceptChan c = false ->
    AcceptStream (S (S fuel)) (ctx_finished cause) c =
      [Returned c None (Some cause)] /\
    AcceptStream (S fuel) ctx_active c = [Parked c] /\
    AcceptStream_select (AcceptStream fuel (ctx_finished cause))
                        (ctx_finished cause) c =
      [Returned c None (Some cause)])) /\
  (acceptUniQueue c = [] ->
   AcceptUniStream (S (S fuel)) (ctx_finished cause) c <> [] /\
   (forall o, In o (AcceptUniStream (S (S fuel)) (ctx_finished cause) c) ->
      exists c', o = Returned c' None (Some cause) /\
                 acceptUniQueue c' = acceptUniQueue c /\
                 same_up_to_uni_token c c') /\
   (acceptUniChan c = false ->
    AcceptUniStream (S (S fuel)) (ctx_finished cause) c =
      [Returned c None (Some cause)] /\
    AcceptUniStream (S fuel) ctx_active c = [Parked c] /\
    AcceptUniStream_select (AcceptUniStream fuel (ctx_finished cause))
                           (ctx_finished cause) c =
      [Returned c None (Some cause)])).
Proof.
  intros Hc Hx Hcaller. split; [| split].
  - intros e He. destruct Hcaller as [->| ->]; discriminate He.
  - intros Hq. rewrite (AcceptStream_cancelled fuel c cause Hc Hx Hq).
    split; [discriminate |]. split.
    + intros o [<-|Hin].
      * exists c. repeat split. now left.
      * destruct (acceptChan c) eqn:Hch; [| contradiction].
        destruct Hin as [<-|[]]. exists (set_acceptChan false c).
        repeat split. right. auto.
    + intros Hch. rewrite Hch. split; [reflexivity |].
      now apply AcceptStream_parks_then_cancelled.
  - intros Hq. rewrite (AcceptUniStream_cancelled fuel c cause Hc Hx Hq).
    split; [discriminate |]. split.
    + intros o [<-|Hin].
      * exists c. repeat split. now left.
      * destruct (acceptUniChan c) eqn:Hch; [| contradiction].
        destruct Hin as [<-|[]]. exists (set_acceptUniChan false c).
        repeat split. right. auto.
    + intros Hch. rewrite Hch. split; [reflexivity |].
      now apply AcceptUniStream_parks_then_cancelled.
Qed.

Lemma cancelled_accept_returns_cancellation_witness :
  (forall o, In o (AcceptStream 2 (ctx_finished context_Canceled) session17_drained) ->
     exists c', o = Returned c' None (Some context_Canceled) /\
                acceptQueue c' = acceptQueue session17_drained /\
                same_up_to_token session17_drained c') /\
  AcceptUniStream 2 (ctx_finished context_Canceled) session17_drained =
    [Returned session17_drained None (Some context_Canceled)].
Proof.
  destruct (cancelled_accept_returns_cancellation
              0 session17_drained context_Canceled eq_refl eq_refl
              (or_introl eq_refl)) as (_ & Hbidi & Huni).
  split.
  - exact (proj1 (proj2 (Hbidi eq_refl))).
  - exact (proj1 (proj2 (proj2 (Huni eq_refl)) eq_refl)).
Defined.

(** ** Calls are executions *)

(** What an accept call does to the connection is an execution of the
    session made of dequeues and receipts of the token, so that the state a
    call leaves behind is again a state of the session. *)
Lemma AcceptStream_execution fuel : forall cctx s o c',
  In o (AcceptStream fuel cctx (conn s)) ->
  outcome_conn o = Some c' ->
  exists evs, run s evs = Some (mkSession c' (handler s)).
Proof.
  induction fuel as [|fuel IH]; intros cctx s o c' Hin Ho.
  - destruct Hin as [<-|[]]. discriminate Ho.
  - rewrite AcceptStream_unfold in Hin. destruct (isClosed (conn s)).
    + destruct Hin as [<-|[]]. injection Ho as <-. exists []. now destruct s.
    + assert (Hdq : run s [ev_dequeue] =
                    Some (mkSession (snd (dequeue (conn s))) (handler s)))
        by reflexivity.
      destruct (dequeue (conn s)) as [[h|] c1]; cbn [snd] in Hdq.
      * destruct Hin as [<-|[]]. injection Ho as <-. eauto.
      * apply in_select in Hin.
        destruct Hin as [[-> _]|(alt & Halt & Hready & Hin)].
        { injection Ho as <-. eauto. }
        destruct Halt as [<-|[<-|[<-|[]]]]; cbn [fst snd] in Hready, Hin.
        -- destruct Hin as [<-|[]]. injection Ho as <-. eauto.
        -- destruct Hin as [<-|[]]. injection Ho as <-. eauto.
        -- destruct (IH cctx (mkSession (set_acceptChan false c1) (handler s)) o c'
                        Hin Ho) as [evs Hevs].
           exists ([ev_dequeue; ev_recv_acceptChan] ++ evs).
           rewrite run_app. cbn [run bind]. cbn [run] in Hdq.
           destruct (step s ev_dequeue) as [s1|]; cbn [bind] in Hdq |- *;
             [| discriminate Hdq].
           injection Hdq as ->. cbn. rewrite Hready. exact Hevs.
Qed.

Lemma AcceptUniStream_execution fuel : forall cctx s o c',
  In o (AcceptUniStream fuel cctx (conn s)) ->
  outcome_conn o = Some c' ->
  exists evs, run s evs = Some (mkSession c' (handler s)).
Proof.
  induction fuel as [|fuel IH]; intros cctx s o c' Hin Ho.
  - destruct Hin as [<-|[]]. discriminate Ho.
  - rewrite AcceptUniStream_unfold in Hin. destruct (isClosed (conn s)).
    + destruct Hin as [<-|[]]. injection Ho as <-. exists []. now destruct s.
    + assert (Hdq : run s [ev_dequeueUni] =
                    Some (mkSession (snd (dequeueUni (conn s))) (handler s)))
        by reflexivity.
      destruct (dequeueUni (conn s)) as [[h|] c1]; cbn [snd] in Hdq.
      * destruct Hin as [<-|[]]. injection Ho as <-. eauto.
      * apply in_select in Hin.
        destruct Hin as [[-> _]|(alt & Halt & Hready & Hin)].
        { injection Ho as <-. eauto. }
        destruct Halt as [<-|[<-|[<-|[]]]]; cbn [fst snd] in Hready, Hin.
        -- destruct Hin as [<-|[]]. injection Ho as <-. eauto.
        -- destruct Hin as [<-|[]]. injection Ho as <-. eauto.
        -- destruct (IH cctx (mkSession (set_acceptUniChan false c1) (handler s)) o c'
                        Hin Ho) as [evs Hevs].
           exists ([ev_dequeueUni; ev_recv_acceptUniChan] ++ evs).
           rewrite run_app. cbn [run bind]. cbn [run] in Hdq.
           destruct (step s ev_dequeueUni) as [s1|]; cbn [bind] in Hdq |- *;
             [| discriminate Hdq].
           injection Hdq as ->. cbn. rewrite Hready. exact Hevs.
Qed.

Lemma reachable_after_accept fuel cctx s c' :
  reachable s ->
  (exists o, In o (AcceptStream fuel cctx (conn s)) /\ outcome_conn o = Some c') \/
  (exists o, In o (AcceptUniStream fuel cctx (conn s)) /\ outcome_conn o = Some c') ->
  reachable (mkSession c' (handler s)).
Proof.
  intros Hr [(o & Hin & Ho)|(o & Hin & Ho)].
  - destruct (AcceptStream_execution fuel cctx s o c' Hin Ho) as [evs Hevs].
    exact (reachable_run s evs _ Hr Hevs).
  - destruct (AcceptUniStream_execution fuel cctx s o c' Hin Ho) as [evs Hevs].
    exact (reachable_run s evs _ Hr Hevs).
Qed.

(** The goroutine of [newConn] as an execution: the reads up to the first
    error, [close(c.closed)], then the deferred [ctxCancel()]. *)
Lemma handler_goroutine_execution reads c c' :
  handler_goroutine reads c = handler_returned c' ->
  run (start c) (map ev_Read (until_error reads) ++ [ev_close; ev_ctxCancel]) =
  Some (mkSession c' pc_exited).
Proof.
  unfold handler_goroutine. destruct (handleConn reads c) as [|c1|] eqn:Hh;
    intros H; try discriminate H.
  injection H as <-.
  change [ev_close; ev_ctxCancel] with ([ev_close] ++ [ev_ctxCancel]).
  rewrite app_assoc, run_app, (handleConn_execution _ _ _ Hh). reflexivity.
Qed.

(** On the connection that [newConn] returns, the goroutine does not
    panic: it is still reading, or it has closed the session. *)
Lemma handler_goroutine_no_panic frameType uniStreamType id c0 reads :
  newConn frameType uniStreamType id = Some c0 ->
  handler_goroutine reads c0 <> handler_panicked.
Proof.
  intros Hnew. destruct (newConn_fields _ _ _ _ Hnew) as (_ & _ & _ & Hcl & _).
  unfold handler_goroutine.
  assert (H : forall c, closed c = false -> handleConn reads c <> handler_panicked).
  { induction reads as [|[err|] reads IH]; intros c Hc; cbn.
    - discriminate.
    - unfold close_chan. destruct c as [? ? ? ? ? cl ? ? ? ?]; cbn in *. subst cl.
      discriminate.
    - auto. }
  specialize (H c0 Hcl). destruct (handleConn reads c0); congruence.
Qed.

(** ** Pushes and accepts in any sequential order *)

(** What the accept calls are due is a prefix of what was queued and
    pushed. *)
Lemma due_is_prefix calls : forall pending hs,
  due calls pending = Some hs ->
  exists rest, pending ++ pushed calls = hs ++ rest.
Proof.
  induction calls as [|[h|cctx] calls IH]; intros pending hs H; cbn in H |- *.
  - injection H as <-. exists pending. now rewrite app_nil_r.
  - destruct (IH _ _ H) as [rest Hrest]. exists rest.
    now rewrite <- Hrest, <- app_assoc.
  - destruct pending as [|h pending]; [discriminate H |].
    destruct (due calls pending) as [hs'|] eqn:Hd; [| discriminate H].
    injection H as <-. destruct (IH _ _ Hd) as [rest Hrest]. exists rest.
    cbn. now rewrite Hrest.
Qed.

(** Whenever every accept call of a sequence finds a stream, the sequence
    has one outcome and hands out the streams in the order of the queue. *)
Lemma run_calls_in_order fuel calls : forall c pending hs,
  closed c = false ->
  acceptQueue c = map Some pending ->
  due calls pending = Some hs ->
  exists c', run_calls (S fuel) calls c = [Returned c' (map accepted hs) None].
Proof.
  induction calls as [|[h|cctx] calls IH]; intros c pending hs Hopen Hq Hdue;
    cbn [run_calls]; cbn in Hdue.
  - injection Hdue as <-. eauto.
  - destruct (addStream_fields (Some h) c) as (Hq1 & _ & Hc1 & _).
    apply (IH (addStream (Some h) c) (pending ++ [h]) hs);
      [congruence | rewrite Hq1, Hq, map_app; reflexivity | exact Hdue].
  - destruct pending as [|h pending]; [discriminate Hdue |].
    destruct (due calls pending) as [hs'|] eqn:Hd; [| discriminate Hdue].
    injection Hdue as <-.
    rewrite (AcceptStream_head fuel cctx c h (map Some pending) Hopen Hq).
    cbn [flat_map]. rewrite app_nil_r.
    destruct (IH (set_acceptQueue (map Some pending) c) pending hs') as [c' Hc'];
      [exact Hopen | reflexivity | exact Hd |].
    rewrite Hc'. cbn. eauto.
Qed.

(** A call parked on the empty queue of an open session is woken by the
    token of the next push and returns the pushed stream. *)
Lemma parked_accept_woken_by_push fuel cctx c h :
  isClosed c = false -> ctx c = ctx_active -> ctx_Done cctx = false ->
  acceptQueue c = [] -> acceptChan c = false ->
  AcceptStream (S fuel) cctx c = [Parked c] /\
  AcceptStream_select (AcceptStream (S fuel) cctx) cctx (addStream (Some h) c) =
  [Returned c (accepted h) None].
Proof.
  intros Hc Hx Hcctx Hq Hch.
  destruct c as [? ? ? ? ? ? ch ? ? ?]; cbn in Hc, Hx, Hq, Hch; subst.
  destruct cctx; [| discriminate Hcctx]. split; reflexivity.
Qed.

(** ** The bytes of the headers *)

Lemma uint8_mod x : quicvarint.uint8 x = x mod 256.
Proof.
  unfold quicvarint.uint8. change 255 with (Z.ones 8).
  rewrite Z.land_ones by lia. reflexivity.
Qed.

Lemma uint8_is_byte x : is_byte (quicvarint.uint8 x).
Proof.
  unfold is_byte. rewrite uint8_mod. apply Z.mod_pos_bound. lia.
Qed.

(** A property checked on the numbers below [n] holds below [n]. *)
Lemma checked_below (P : Z -> bool) (n : nat) :
  forallb P (map Z.of_nat (seq 0 n)) = true ->
  forall x, 0 <= x < Z.of_nat n -> P x = true.
Proof.
  intros Hall x Hx. rewrite forallb_forall in Hall. apply Hall.
  apply in_map_iff. exists (Z.to_nat x). split; [lia |].
  apply in_seq. lia.
Qed.

Lemma first_byte_checked x :
  0 <= x < 64 ->
  quicvarint.first_byte_ok 0 1 x = true /\
  quicvarint.first_byte_ok 64 2 x = true /\
  quicvarint.first_byte_ok 128 4 x = true /\
  quicvarint.first_byte_ok 192 8 x = true.
Proof.
  intros Hx. repeat split;
    apply (checked_below (quicvarint.first_byte_ok _ _) 64);
    solve [vm_compute; reflexivity | exact Hx].
Qed.

Lemma first_byte_facts k n x :
  quicvarint.first_byte_ok k n x = true ->
  Z.lor x k = x + k /\
  Z.shiftl 1 (Z.shiftr (Z.land (x + k) 192) 6) = n /\
  Z.land (x + k) 63 = x.
Proof.
  unfold quicvarint.first_byte_ok. intros H.
  apply andb_prop in H. destruct H as [H H3].
  apply andb_prop in H. destruct H as [H1 H2].
  apply Z.eqb_eq in H1, H2, H3. auto.
Qed.

Lemma varint_cases i :
  0 <= i ->
  (i <= quicvarint.maxVarInt1 /\ quicvarint.varint i = Some [i]) \/
  (quicvarint.maxVarInt1 < i <= quicvarint.maxVarInt2 /\
   quicvarint.varint i = Some [i / 2^8 + 64; i mod 256]) \/
  (quicvarint.maxVarInt2 < i <= quicvarint.maxVarInt4 /\
   quicvarint.varint i =
   Some [i / 2^24 + 128; (i / 2^16) mod 256; (i / 2^8) mod 256; i mod 256]) \/
  (quicvarint.maxVarInt4 < i <= quicvarint.maxVarInt8 /\
   quicvarint.varint i =
   Some [i / 2^56 + 192; (i / 2^48) mod 256; (i / 2^40) mod 256;
         (i / 2^32) mod 256; (i / 2^24) mod 256; (i / 2^16) mod 256;
         (i / 2^8) mod 256; i mod 256]) \/
  (quicvarint.maxVarInt8 < i /\ quicvarint.varint i = None).
Proof.
  intros Hi. unfold quicvarint.varint, quicvarint.Write.
  unfold quicvarint.maxVarInt1, quicvarint.maxVarInt2, quicvarint.maxVarInt4,
    quicvarint.maxVarInt8.
  rewrite !uint8_mod, !Z.shiftr_div_pow2 by lia. cbn [app].
  destruct (i <=? 63) eqn:H1; [apply Z.leb_le in H1 | apply Z.leb_gt in H1].
  { left. split; trivial. now rewrite Z.mod_small by lia. }
  destruct (i <=? 16383) eqn:H2; [apply Z.leb_le in H2 | apply Z.leb_gt in H2].
  { right; left. split; [lia |].
    assert (Hx : 0 <= i / 2^8 < 64) by (Z.div_mod_to_equations; lia).
    rewrite (Z.mod_small (i / 2^8)) by lia.
    destruct (first_byte_checked _ Hx) as (_ & Hok & _).
    destruct (first_byte_facts _ _ _ Hok) as (-> & _). reflexivity. }
  destruct (i <=? 1073741823) eqn:H4; [apply Z.leb_le in H4 | apply Z.leb_gt in H4].
  { right; right; left. split; [lia |].
    assert (Hx : 0 <= i / 2^24 < 64) by (Z.div_mod_to_equations; lia).
    rewrite (Z.mod_small (i / 2^24)) by lia.
    destruct (first_byte_checked _ Hx) as (_ & _ & Hok & _).
    destruct (first_byte_facts _ _ _ Hok) as (-> & _). reflexivity. }
  destruct (i <=? 4611686018427387903) eqn:H8;
    [apply Z.leb_le in H8 | apply Z.leb_gt in H8].
  { right; right; right; left. split; [lia |].
    assert (Hx : 0 <= i / 2^56 < 64) by (Z.div_mod_to_equations; lia).
    rewrite (Z.mod_small (i / 2^56)) by lia.
    destruct (first_byte_checked _ Hx) as (_ & _ & _ & Hok).
    destruct (first_byte_facts _ _ _ Hok) as (-> & _). reflexivity. }
  right; right; right; right. split; [lia | reflexivity].
Qed.

(** [Read] gives back what [Write] wrote and leaves the rest of the bytes. *)
Lemma Read_varint i bytes rest :
  0 <= i ->
  quicvarint.varint i = Some bytes ->
  quicvarint.Read (bytes ++ rest) = Some (i, rest).
Proof.
  intros Hi Hv.
  destruct (varint_cases i Hi)
    as [[Hr Hc]|[[Hr Hc]|[[Hr Hc]|[[Hr Hc]|[Hr Hc]]]]];
    rewrite Hc in Hv; try discriminate Hv;
    apply (f_equal (fun o => match o with Some l => l | None => [] end)) in Hv;
    subst bytes; cbn [app];
    unfold quicvarint.maxVarInt1, quicvarint.maxVarInt2, quicvarint.maxVarInt4,
      quicvarint.maxVarInt8 in Hr.
  - assert (Hx : 0 <= i < 64) by lia.
    destruct (first_byte_checked _ Hx) as (Hok & _).
    destruct (first_byte_facts _ _ _ Hok) as (_ & Hlen & Hb1).
    rewrite Z.add_0_r in Hlen, Hb1.
    unfold quicvarint.Read. cbv zeta. rewrite Hlen, Hb1. reflexivity.
  - assert (Hx : 0 <= i / 2^8 < 64) by (Z.div_mod_to_equations; lia).
    destruct (first_byte_checked _ Hx) as (_ & Hok & _).
    destruct (first_byte_facts _ _ _ Hok) as (_ & Hlen & Hb1).
    unfold quicvarint.Read. cbv zeta. rewrite Hlen, Hb1.
    change (2 =? 1) with false. change (2 =? 2) with true. cbv iota.
    rewrite Z.shiftl_mul_pow2 by lia. do 2 f_equal.
    Z.div_mod_to_equations; lia.
  - assert (Hx : 0 <= i / 2^24 < 64) by (Z.div_mod_to_equations; lia).
    destruct (first_byte_checked _ Hx) as (_ & _ & Hok & _).
    destruct (first_byte_facts _ _ _ Hok) as (_ & Hlen & Hb1).
    unfold quicvarint.Read. cbv zeta. rewrite Hlen, Hb1.
    change (4 =? 1) with false. change (4 =? 2) with false.
    change (4 =? 4) with true. cbv iota.
    rewrite !Z.shiftl_mul_pow2 by lia. do 2 f_equal.
    Z.div_mod_to_equations; lia.
  - assert (Hx : 0 <= i / 2^56 < 64) by (Z.div_mod_to_equations; lia).
    destruct (first_byte_checked _ Hx) as (_ & _ & _ & Hok).
    destruct (first_byte_facts _ _ _ Hok) as (_ & Hlen & Hb1).
    unfold quicvarint.Read. cbv zeta. rewrite Hlen, Hb1.
    change (8 =? 1) with false. change (8 =? 2) with false.
    change (8 =? 4) with false. cbv iota.
    rewrite !Z.shiftl_mul_pow2 by lia. do 2 f_equal.
    Z.div_mod_to_equations; lia.
Qed.

Lemma varint_is_bytes i bytes :
  0 <= i -> quicvarint.varint i = Some bytes -> Forall is_byte bytes.
Proof.
  intros Hi Hv.
  destruct (varint_cases i Hi)
    as [[Hr Hc]|[[Hr Hc]|[[Hr Hc]|[[Hr Hc]|[Hr Hc]]]]];
    rewrite Hc in Hv; try discriminate Hv;
    apply (f_equal (fun o => match o with Some l => l | None => [] end)) in Hv;
    subst bytes;
    unfold quicvarint.maxVarInt1, quicvarint.maxVarInt2, quicvarint.maxVarInt4,
      quicvarint.maxVarInt8 in Hr;
    repeat constructor; unfold is_byte; Z.div_mod_to_equations; lia.
Qed.

Lemma newConn_inv frameType uniStreamType id c0 :
  newConn frameType uniStreamType id = Some c0 ->
  exists tagBidi tagUni idBytes,
    quicvarint.varint frameType = Some tagBidi /\
    quicvarint.varint uniStreamType = Some tagUni /\
    quicvarint.varint id = Some idBytes /\
    streamHdr c0 = tagBidi ++ idBytes /\
    uniStreamHdr c0 = tagUni ++ idBytes.
Proof.
  unfold newConn. rewrite Len_varint.
  destruct (quicvarint.varint id) as [idBytes|] eqn:Hid; cbn [bind];
    [| discriminate].
  destruct (quicvarint.Write [] uniStreamType) as [tagUni|] eqn:Ht; cbn [bind];
    [| discriminate].
  rewrite Write_appends, Hid. cbn [bind].
  destruct (quicvarint.Write [] frameType) as [tagBidi|] eqn:Hb; cbn [bind];
    [| discriminate].
  rewrite Write_appends, Hid. cbn [bind].
  intros H. injection H as <-. cbn.
  exists tagBidi, tagUni, idBytes. auto.
Qed.

(** Reading a header that is followed by [payload] gives the tag, then
    the identifier, and leaves the payload. *)
Lemma header_reads tag id tagBytes idBytes payload :
  0 <= tag -> 0 <= id ->
  quicvarint.varint tag = Some tagBytes ->
  quicvarint.varint id = Some idBytes ->
  quicvarint.Read ((tagBytes ++ idBytes) ++ payload) = Some (tag, idBytes ++ payload) /\
  quicvarint.Read (idBytes ++ payload) = Some (id, payload).
Proof.
  intros Ht Hi Htag Hid. split.
  - rewrite <- app_assoc. now apply Read_varint.
  - now apply Read_varint.
Qed.

(** X1: [newConn] panics exactly when one of the two stream-type tags or
    the session identifier does not fit into 62 bits; the connection it
    returns otherwise carries the identifier and is open, with no terminal
    error, a live lifetime context, empty accept queues and no pending
    notification. *)
Theorem newConn_panics_iff_out_of_range (frameType uniStreamType id : Z) :
  (newConn frameType uniStreamType id = None <->
   quicvarint.maxVarInt8 < frameType \/ quicvarint.maxVarInt8 < uniStreamType \/
   quicvarint.maxVarInt8 < id) /\
  (forall c0, newConn frameType uniStreamType id = Some c0 ->
     sessionID c0 = id /\ isClosed c0 = false /\ closeErr c0 = None /\
     ctx_Done (Context_ c0) = false /\
     acceptQueue c0 = [] /\ acceptChan c0 = false /\
     acceptUniQueue c0 = [] /\ acceptUniChan c0 = false).
Proof.
  split.
  - split.
    + intros Hnone.
      destruct (Z.le_gt_cases frameType quicvarint.maxVarInt8) as [Hf|Hf]; [| lia].
      destruct (Z.le_gt_cases uniStreamType quicvarint.maxVarInt8) as [Hu|Hu];
        [| lia].
      destruct (Z.le_gt_cases id quicvarint.maxVarInt8) as [Hi|Hi]; [| lia].
      destruct (varint_defined _ Hf) as [tagBidi Hb].
      destruct (varint_defined _ Hu) as [tagUni Ht].
      destruct (varint_defined _ Hi) as [idBytes Hid].
      destruct (newConn_headers _ _ _ _ _ _ Hb Ht Hid) as (c0 & Hnew & _).
      congruence.
    + intros Hout.
      destruct (newConn frameType uniStreamType id) as [c0|] eqn:Hnew; trivial.
      destruct (newConn_inv _ _ _ _ Hnew) as (tb & tu & ib & Hb & Hu & Hi & _).
      destruct Hout as [H|[H|H]]; apply varint_panics in H; destruct H as [H _];
        congruence.
  - intros c0 Hnew.
    destruct (newConn_fields _ _ _ _ Hnew) as (H1 & H2 & H3 & H4 & H5 & H6 & H7 & H8).
    unfold isClosed, Context_. rewrite H2. cbn. auto 10.
Qed.

Lemma newConn_panics_iff_out_of_range_witness :
  sessionID session17 = 17 /\ isClosed session17 = false /\
  closeErr session17 = None /\ ctx_Done (Context_ session17) = false /\
  acceptQueue session17 = [] /\ acceptChan session17 = false /\
  acceptUniQueue session17 = [] /\ acceptUniChan session17 = false.
Proof.
  exact (proj2 (newConn_panics_iff_out_of_range 65 84 17) session17 eq_refl).
Defined.

(** X2: the header prefixes that [newConn] precomputes consist of bytes
    and decode as written: from a header followed by any payload,
    [quicvarint.Read] reads the stream-type tag, then the session
    identifier, and what is left is the payload. *)
Theorem headers_decode_to_tag_and_id
    (frameType uniStreamType id : Z) (c0 : Conn) (payload : list Z) :
  0 <= frameType -> 0 <= uniStreamType -> 0 <= id ->
  newConn frameType uniStreamType id = Some c0 ->
  Forall is_byte (streamHdr c0) /\
  Forall is_byte (uniStreamHdr c0) /\
  (exists r, quicvarint.Read (streamHdr c0 ++ payload) = Some (frameType, r) /\
             quicvarint.Read r = Some (id, payload)) /\
  (exists r, quicvarint.Read (uniStreamHdr c0 ++ payload) = Some (uniStreamType, r) /\
             quicvarint.Read r = Some (id, payload)).
Proof.
  intros Hf Hu Hi Hnew.
  destruct (newConn_inv _ _ _ _ Hnew) as (tb & tu & ib & Hb & Ht & Hid & -> & ->).
  pose proof (varint_is_bytes _ _ Hf Hb) as Bb.
  pose proof (varint_is_bytes _ _ Hu Ht) as Bu.
  pose proof (varint_is_bytes _ _ Hi Hid) as Bi.
  split; [apply Forall_app; auto |]. split; [apply Forall_app; auto |].
  split.
  - exists (ib ++ payload). now apply header_reads.
  - exists (ib ++ payload). now apply header_reads.
Qed.

Lemma headers_decode_to_tag_and_id_witness :
  Forall is_byte (streamHdr session17) /\
  Forall is_byte (uniStreamHdr session17) /\
  (exists r, quicvarint.Read (streamHdr session17 ++ [104; 105]) = Some (65, r) /\
             quicvarint.Read r = Some (17, [104; 105])) /\
  (exists r, quicvarint.Read (uniStreamHdr session17 ++ [104; 105]) = Some (84, r) /\
             quicvarint.Read r = Some (17, [104; 105])).
Proof.
  apply (headers_decode_to_tag_and_id 65 84 17 session17 [104; 105]);
    solve [lia | reflexivity].
Defined.

(** X3: the header prefixes identify the session and the direction: two
    connections made with the same tags have the same bidirectional (or
    unidirectional) header only if they have the same session identifier,
    and a bidirectional header equals a unidirectional one only if the two
    tags are equal. *)
Theorem headers_identify_session_and_direction
    (frameType uniStreamType id1 id2 : Z) (c1 c2 : Conn) :
  0 <= frameType -> 0 <= uniStreamType -> 0 <= id1 -> 0 <= id2 ->
  newConn frameType uniStreamType id1 = Some c1 ->
  newConn frameType uniStreamType id2 = Some c2 ->
  (streamHdr c1 = streamHdr c2 -> id1 = id2) /\
  (uniStreamHdr c1 = uniStreamHdr c2 -> id1 = id2) /\
  (streamHdr c1 = uniStreamHdr c2 -> frameType = uniStreamType).
Proof.
  intros Hf Hu H1 H2 Hn1 Hn2.
  destruct (newConn_inv _ _ _ _ Hn1) as (tb & tu & ib1 & Hb & Ht & Hi1 & Hs1 & Hu1).
  destruct (newConn_inv _ _ _ _ Hn2) as (tb' & tu' & ib2 & Hb' & Ht' & Hi2 & Hs2 & Hu2).
  assert (tb' = tb) by congruence. assert (tu' = tu) by congruence. subst tb' tu'.
  rewrite Hs1, Hs2, Hu1, Hu2.
  assert (Hinj : ib1 = ib2 -> id1 = id2).
  { intros <-. pose proof (Read_varint id1 ib1 [] H1 Hi1) as R1.
    pose proof (Read_varint id2 ib1 [] H2 Hi2) as R2. congruence. }
  repeat split.
  - intros He. apply app_inv_head in He. auto.
  - intros He. apply app_inv_head in He. auto.
  - intros He.
    destruct (header_reads frameType id1 tb ib1 [] Hf H1 Hb Hi1) as [R1 _].
    destruct (header_reads uniStreamType id2 tu ib2 [] Hu H2 Ht Hi2) as [R2 _].
    rewrite He in R1. congruence.
Qed.

Lemma headers_identify_session_and_direction_witness :
  (streamHdr session17 = streamHdr session17 -> 17 = 17) /\
  (uniStreamHdr session17 = uniStreamHdr session17 -> 17 = 17) /\
  (streamHdr session17 = uniStreamHdr session17 -> 65 = 84).
Proof.
  apply (headers_identify_session_and_direction 65 84 17 17 session17 session17);
    solve [lia | reflexivity].
Defined.

(** ** What an accept call takes from the queue *)

Lemma dequeue_spec c :
  accept_frame c (snd (dequeue c)) /\
  acceptChan (snd (dequeue c)) = acceptChan c /\
  match fst (dequeue c) with
  | Some h => acceptQueue c = Some h :: acceptQueue (snd (dequeue c))
  | None => exists nils, all_nil nils /\
                         acceptQueue c = nils ++ acceptQueue (snd (dequeue c))
  end.
Proof.
  unfold dequeue, accept_frame.
  destruct c as [? ? ? ? ? ? ? [|[h|] rest] ? ?]; cbn; repeat split.
  - exists []. split; [constructor | reflexivity].
  - exists [None]. split; [repeat constructor | reflexivity].
Qed.

Lemma accept_frame_trans c1 c2 c3 :
  accept_frame c1 c2 -> accept_frame c2 c3 -> accept_frame c1 c3.
Proof.
  unfold accept_frame. intros H12 H23. rewrite H23 at 1. rewrite H12 at 1.
  now destruct c1.
Qed.

Lemma AcceptStream_accounting fuel : forall cctx c o c',
  In o (AcceptStream fuel cctx c) ->
  outcome_conn o = Some c' ->
  accept_frame c c' /\
  (acceptChan c = false -> acceptChan c' = false) /\
  exists nils, all_nil nils /\
    ((exists h, o = Returned c' (accepted h) None /\
                acceptQueue c = nils ++ Some h :: acceptQueue c') \/
     ((o = Parked c' \/ exists err, o = Returned c' None err) /\
      acceptQueue c = nils ++ acceptQueue c')).
Proof.
  induction fuel as [|fuel IH]; intros cctx c o c' Hin Ho.
  - destruct Hin as [<-|[]]. discriminate Ho.
  - rewrite AcceptStream_unfold in Hin. destruct (isClosed c).
    + destruct Hin as [<-|[]]. injection Ho as <-.
      split; [now destruct c |]. split; [trivial |].
      exists []. split; [constructor |]. right. split; [right; eauto | reflexivity].
    + destruct (dequeue_spec c) as (Hfr & Hch & Hq).
      destruct (dequeue c) as [[h|] c1]; cbn [fst snd] in Hfr, Hch, Hq.
      * destruct Hin as [<-|[]]. injection Ho as <-.
        split; [exact Hfr |]. split; [congruence |].
        exists []. split; [constructor |]. left. exists h. split; trivial.
      * destruct Hq as (nils & Hnils & Hq).
        assert (Hhere : forall err,
                  o = Parked c1 \/ o = Returned c1 None err ->
                  outcome_conn o = Some c' ->
                  accept_frame c c' /\
                  (acceptChan c = false -> acceptChan c' = false) /\
                  exists nils0, all_nil nils0 /\
                    ((exists h, o = Returned c' (accepted h) None /\
                                acceptQueue c = nils0 ++ Some h :: acceptQueue c') \/
                     ((o = Parked c' \/ exists err0, o = Returned c' None err0) /\
                      acceptQueue c = nils0 ++ acceptQueue c'))).
        { intros err [->| ->] Hc; injection Hc as <-;
            (split; [exact Hfr |]); (split; [congruence |]);
            exists nils; (split; [exact Hnils |]); right; split; eauto. }
        apply in_select in Hin.
        destruct Hin as [[-> _]|(alt & Halt & Hready & Hin)].
        { apply (Hhere None); auto. }
        destruct Halt as [<-|[<-|[<-|[]]]]; cbn [fst snd] in Hready, Hin.
        -- destruct Hin as [<-|[]]. apply (Hhere (closeErr c1)); auto.
        -- destruct Hin as [<-|[]]. apply (Hhere (ctx_Err cctx)); auto.
        -- destruct (IH cctx (set_acceptChan false c1) o c' Hin Ho)
             as (Hfr' & Hch' & nils' & Hnils' & Hcases).
           split.
           { apply (accept_frame_trans c c1 c'); trivial. }
           split.
           { intros _. apply Hch'. now destruct c1. }
           exists (nils ++ nils'). split; [apply Forall_app; auto |].
           replace (acceptQueue (set_acceptChan false c1)) with (acceptQueue c1)
             in Hcases by now destruct c1.
           rewrite Hq.
           destruct Hcases as [(h & Ho' & Hq')|(Ho' & Hq')]; rewrite Hq', app_assoc.
           ++ left. exists h. auto.
           ++ right. auto.
Qed.


Lemma dequeueUni_spec c :
  acceptUni_frame c (snd (dequeueUni c)) /\
  acceptUniChan (snd (dequeueUni c)) = acceptUniChan c /\
  match fst (dequeueUni c) with
  | Some h => acceptUniQueue c = Some h :: acceptUniQueue (snd (dequeueUni c))
  | None => exists nils, all_nil nils /\
                         acceptUniQueue c = nils ++ acceptUniQueue (snd (dequeueUni c))
  end.
Proof.
  unfold dequeueUni, acceptUni_frame.
  destruct c as [? ? ? ? ? ? ? ? ? [|[h|] rest]]; cbn; repeat split.
  - exists []. split; [constructor | reflexivity].
  - exists [None]. split; [repeat constructor | reflexivity].
Qed.

Lemma acceptUni_frame_trans c1 c2 c3 :
  acceptUni_frame c1 c2 -> acceptUni_frame c2 c3 -> acceptUni_frame c1 c3.
Proof.
  unfold acceptUni_frame. intros H12 H23. rewrite H23 at 1. rewrite H12 at 1.
  now destruct c1.
Qed.

Lemma AcceptUniStream_accounting fuel : forall cctx c o c',
  In o (AcceptUniStream fuel cctx c) ->
  outcome_conn o = Some c' ->
  acceptUni_frame c c' /\
  (acceptUniChan c = false -> acceptUniChan c' = false) /\
  exists nils, all_nil nils /\
    ((exists h, o = Returned c' (acceptedUni h) None /\
                acceptUniQueue c = nils ++ Some h :: acceptUniQueue c') \/
     ((o = Parked c' \/ exists err, o = Returned c' None err) /\
      acceptUniQueue c = nils ++ acceptUniQueue c')).
Proof.
  induction fuel as [|fuel IH]; intros cctx c o c' Hin Ho.
  - destruct Hin as [<-|[]]. discriminate Ho.
  - rewrite AcceptUniStream_unfold in Hin. destruct (isClosed c).
    + destruct Hin as [<-|[]]. injection Ho as <-.
      split; [now destruct c |]. split; [trivial |].
      exists []. split; [constructor |]. right. split; [right; eauto | reflexivity].
    + destruct (dequeueUni_spec c) as (Hfr & Hch & Hq).
      destruct (dequeueUni c) as [[h|] c1]; cbn [fst snd] in Hfr, Hch, Hq.
      * destruct Hin as [<-|[]]. injection Ho as <-.
        split; [exact Hfr |]. split; [congruence |].
        exists []. split; [constructor |]. left. exists h. split; trivial.
      * destruct Hq as (nils & Hnils & Hq).
        assert (Hhere : forall err,
                  o = Parked c1 \/ o = Returned c1 None err ->
                  outcome_conn o = Some c' ->
                  acceptUni_frame c c' /\
                  (acceptUniChan c = false -> acceptUniChan c' = false) /\
                  exists nils0, all_nil nils0 /\
                    ((exists h, o = Returned c' (acceptedUni h) None /\
                                acceptUniQueue c = nils0 ++ Some h :: acceptUniQueue c') \/
                     ((o = Parked c' \/ exists err0, o = Returned c' None err0) /\
                      acceptUniQueue c = nils0 ++ acceptUniQueue c'))).
        { intros err [->| ->] Hc; injection Hc as <-;
            (split; [exact Hfr |]); (split; [congruence |]);
            exists nils; (split; [exact Hnils |]); right; split; eauto. }
        apply in_select in Hin.
        destruct Hin as [[-> _]|(alt & Halt & Hready & Hin)].
        { apply (Hhere None); auto. }
        destruct Halt as [<-|[<-|[<-|[]]]]; cbn [fst snd] in Hready, Hin.
        -- destruct Hin as [<-|[]]. apply (Hhere (closeErr c1)); auto.
        -- destruct Hin as [<-|[]]. apply (Hhere (ctx_Err cctx)); auto.
        -- destruct (IH cctx (set_acceptUniChan false c1) o c' Hin Ho)
             as (Hfr' & Hch' & nils' & Hnils' & Hcases).
           split.
           { apply (acceptUni_frame_trans c c1 c'); trivial. }
           split.
           { intros _. apply Hch'. now destruct c1. }
           exists (nils ++ nils'). split; [apply Forall_app; auto |].
           replace (acceptUniQueue (set_acceptUniChan false c1)) with (acceptUniQueue c1)
             in Hcases by now destruct c1.
           rewrite Hq.
           destruct Hcases as [(h & Ho' & Hq')|(Ho' & Hq')]; rewrite Hq', app_assoc.
           ++ left. exists h. auto.
           ++ right. auto.
Qed.

Lemma AcceptUniStream_1_has_fuel_unless_token cctx c :
  acceptUniChan c = false -> ~ In OutOfFuel (AcceptUniStream 1 cctx c).
Proof.
  intros H. cbn. destruct (isClosed c).
  - intros [Hin|[]]. discriminate Hin.
  - assert (Hch : acceptUniChan (snd (dequeueUni c)) = false).
    { unfold dequeueUni. destruct (acceptUniQueue c); trivial. }
    destruct (dequeueUni c) as [[h|] c1]; cbn [snd] in Hch.
    + intros [Hin|[]]. discriminate Hin.
    + intros Hin. apply in_select in Hin.
      destruct Hin as [[Hin _]|(alt & Halt & Hready & Hin)]; [discriminate Hin |].
      destruct Halt as [<-|[<-|[<-|[]]]]; cbn [fst snd] in Hready, Hin.
      * destruct Hin as [Hin|[]]. discriminate Hin.
      * destruct Hin as [Hin|[]]. discriminate Hin.
      * congruence.
Qed.

Lemma AcceptUniStream_has_fuel fuel cctx c :
  ~ In OutOfFuel (AcceptUniStream (S (S fuel)) cctx c).
Proof.
  rewrite AcceptUniStream_fuel, (AcceptUniStream_unfold 1). destruct (isClosed c).
  - intros [Hin|[]]. discriminate Hin.
  - destruct (dequeueUni c) as [[h|] c1].
    + intros [Hin|[]]. discriminate Hin.
    + intros Hin. apply in_select in Hin.
      destruct Hin as [[Hin _]|(alt & Halt & Hready & Hin)]; [discriminate Hin |].
      destruct Halt as [<-|[<-|[<-|[]]]]; cbn [fst snd] in Hready, Hin.
      * destruct Hin as [Hin|[]]. discriminate Hin.
      * destruct Hin as [Hin|[]]. discriminate Hin.
      * revert Hin. apply AcceptUniStream_1_has_fuel_unless_token. now destruct c1.
Qed.


(** X4: an accept call removes from its queue nothing but the stream it
    returns and nil entries in front of it: when it returns a stream, the
    queue was some nil entries, that stream, and the queue it leaves; when
    it fails or parks, the queue was some nil entries and the queue it
    leaves.  So a queued stream is never dropped, and a returned stream was
    queued. *)
Theorem accept_removes_only_what_it_returns
    (fuel : nat) (cctx : Context) (c : Conn) :
  (forall o c', In o (AcceptStream fuel cctx c) -> outcome_conn o = Some c' ->
     exists nils, all_nil nils /\
       ((exists h, o = Returned c' (accepted h) None /\
                   acceptQueue c = nils ++ Some h :: acceptQueue c') \/
        ((o = Parked c' \/ exists err, o = Returned c' None err) /\
         acceptQueue c = nils ++ acceptQueue c'))) /\
  (forall o c', In o (AcceptUniStream fuel cctx c) -> outcome_conn o = Some c' ->
     exists nils, all_nil nils /\
       ((exists h, o = Returned c' (acceptedUni h) None /\
                   acceptUniQueue c = nils ++ Some h :: acceptUniQueue c') \/
        ((o = Parked c' \/ exists err, o = Returned c' None err) /\
         acceptUniQueue c = nils ++ acceptUniQueue c'))).
Proof.
  split; intros o c' Hin Ho.
  - now destruct (AcceptStream_accounting fuel cctx c o c' Hin Ho) as (_ & _ & H).
  - now destruct (AcceptUniStream_accounting fuel cctx c o c' Hin Ho) as (_ & _ & H).
Qed.

Lemma accept_removes_only_what_it_returns_witness :
  (exists nils, all_nil nils /\
     ((exists h, Returned session17 (accepted 1%nat) None =
                 Returned session17 (accepted h) None /\
                 acceptQueue session17_nil_then_1 =
                 nils ++ Some h :: acceptQueue session17) \/
      ((Returned session17 (accepted 1%nat) None = Parked session17 \/
        exists err, Returned session17 (accepted 1%nat) None =
                    Returned session17 None err) /\
       acceptQueue session17_nil_then_1 = nils ++ acceptQueue session17))) /\
  (exists nils, all_nil nils /\
     ((exists h, Returned session17 (acceptedUni 1%nat) None =
                 Returned session17 (acceptedUni h) None /\
                 acceptUniQueue session17_uni_nil_then_1 =
                 nils ++ Some h :: acceptUniQueue session17) \/
      ((Returned session17 (acceptedUni 1%nat) None = Parked session17 \/
        exists err, Returned session17 (acceptedUni 1%nat) None =
                    Returned session17 None err) /\
       acceptUniQueue session17_uni_nil_then_1 = nils ++ acceptUniQueue session17))).
Proof.
  split.
  - exact (proj1 (accept_removes_only_what_it_returns 2 ctx_active session17_nil_then_1)
                 (Returned session17 (accepted 1%nat) None) session17
                 (or_introl eq_refl) eq_refl).
  - exact (proj2 (accept_removes_only_what_it_returns 2 ctx_active
                    session17_uni_nil_then_1)
                 (Returned session17 (acceptedUni 1%nat) None) session17
                 (or_introl eq_refl) eq_refl).
Defined.

(** X5: an accept call touches only its own queue and notification
    channel: whatever its outcome, the closure fields, the identifier, the
    headers and the queue and channel of the other direction are what they
    were; and it never leaves a notification where there was none. *)
Theorem accept_touches_only_its_queue (fuel : nat) (cctx : Context) (c : Conn) :
  (forall o c', In o (AcceptStream fuel cctx c) -> outcome_conn o = Some c' ->
     closed c' = closed c /\ closeErr c' = closeErr c /\ ctx c' = ctx c /\
     sessionID c' = sessionID c /\ streamHdr c' = streamHdr c /\
     uniStreamHdr c' = uniStreamHdr c /\
     acceptUniQueue c' = acceptUniQueue c /\ acceptUniChan c' = acceptUniChan c /\
     (acceptChan c = false -> acceptChan c' = false)) /\
  (forall o c', In o (AcceptUniStream fuel cctx c) -> outcome_conn o = Some c' ->
     closed c' = closed c /\ closeErr c' = closeErr c /\ ctx c' = ctx c /\
     sessionID c' = sessionID c /\ streamHdr c' = streamHdr c /\
     uniStreamHdr c' = uniStreamHdr c /\
     acceptQueue c' = acceptQueue c /\ acceptChan c' = acceptChan c /\
     (acceptUniChan c = false -> acceptUniChan c' = false)).
Proof.
  split; intros o c' Hin Ho.
  - destruct (AcceptStream_accounting fuel cctx c o c' Hin Ho) as (Hfr & Hch & _).
    unfold accept_frame in Hfr. rewrite Hfr. cbn. auto 10.
  - destruct (AcceptUniStream_accounting fuel cctx c o c' Hin Ho) as (Hfr & Hch & _).
    unfold acceptUni_frame in Hfr. rewrite Hfr. cbn. auto 10.
Qed.

Lemma accept_touches_only_its_queue_witness :
  closed session17 = closed session17_nil_then_1 /\
  acceptUniQueue session17 = acceptUniQueue session17_nil_then_1 /\
  acceptQueue session17 = acceptQueue session17_uni_nil_then_1.
Proof.
  destruct (proj1 (accept_touches_only_its_queue 2 ctx_active session17_nil_then_1)
                  (Returned session17 (accepted 1%nat) None) session17
                  (or_introl eq_refl) eq_refl) as (H1 & _ & _ & _ & _ & _ & H2 & _).
  destruct (proj2 (accept_touches_only_its_queue 2 ctx_active session17_uni_nil_then_1)
                  (Returned session17 (acceptedUni 1%nat) None) session17
                  (or_introl eq_refl) eq_refl) as (_ & _ & _ & _ & _ & _ & H3 & _).
  exact (conj H1 (conj H2 H3)).
Defined.

(** X6: an accept call that runs while nothing else touches the
    connection calls itself again at most once, after it has received the
    one token of its channel: with two units of fuel or more it never runs
    out of fuel, and its outcomes are those it has with two units. *)
Theorem accept_calls_itself_at_most_once (fuel : nat) (cctx : Context) (c : Conn) :
  ~ In OutOfFuel (AcceptStream (S (S fuel)) cctx c) /\
  AcceptStream (S (S fuel)) cctx c = AcceptStream 2 cctx c /\
  ~ In OutOfFuel (AcceptUniStream (S (S fuel)) cctx c) /\
  AcceptUniStream (S (S fuel)) cctx c = AcceptUniStream 2 cctx c.
Proof.
  split; [apply AcceptStream_has_fuel |].
  split; [apply AcceptStream_fuel |].
  split; [apply AcceptUniStream_has_fuel | apply AcceptUniStream_fuel].
Qed.

(** ** Waiting calls *)

Lemma session17_closing_reachable : reachable (mkSession session17_closing pc_ctxCancel).
Proof.
  exists 65, 84, 17, session17, [ev_Read None; ev_Read (Some io_EOF); ev_close].
  split; reflexivity.
Defined.

(** X7: a call waiting in the [select] of [AcceptStream] or
    [AcceptUniStream] with a live caller context is released by the
    lifetime context, not by the closed channel.  Once the lifetime context
    is done, every way the [select] can go returns no stream and the
    terminal error, which is non-nil.  Between [close(c.closed)] and the
    deferred [ctxCancel()], a new call fails at once, but a waiting call
    with no notification pending stays parked. *)
Theorem waiting_accept_released_by_lifetime_context
    (s : Session) (fuel : nat) (cctx : Context) :
  reachable s ->
  ctx_Done cctx = false ->
  (ctx_Done (ctx (conn s)) = true ->
   closeErr (conn s) <> None /\
   AcceptStream_select (AcceptStream (S fuel) cctx) cctx (conn s) <> [] /\
   (forall o, In o (AcceptStream_select (AcceptStream (S fuel) cctx) cctx (conn s)) ->
      exists c', o = Returned c' None (closeErr (conn s))) /\
   AcceptUniStream_select (AcceptUniStream (S fuel) cctx) cctx (conn s) <> [] /\
   (forall o, In o (AcceptUniStream_select (AcceptUniStream (S fuel) cctx) cctx (conn s)) ->
      exists c', o = Returned c' None (closeErr (conn s)))) /\
  (handler s = pc_ctxCancel ->
   AcceptStream (S fuel) cctx (conn s) = [Returned (conn s) None (closeErr (conn s))] /\
   AcceptUniStream (S fuel) cctx (conn s) =
     [Returned (conn s) None (closeErr (conn s))] /\
   (acceptChan (conn s) = false ->
    AcceptStream_select (AcceptStream (S fuel) cctx) cctx (conn s) =
      [Parked (conn s)]) /\
   (acceptUniChan (conn s) = false ->
    AcceptUniStream_select (AcceptUniStream (S fuel) cctx) cctx (conn s) =
      [Parked (conn s)])).
Proof.
  intros Hr Hcctx. pose proof (reachable_closure_inv s Hr) as Hinv.
  destruct cctx; [| discriminate Hcctx]. unfold closure_inv in Hinv.
  destruct s as [[id sh uh lctx ce cl ch q uch uq] h]. cbn in Hinv |- *. split.
  - intros Hdone.
    destruct h; destruct Hinv as (He & Hcl & Hctx); subst lctx;
      try discriminate Hdone.
    destruct He as [e ->]. subst cl.
    split; [discriminate |].
    destruct ch, uch; cbn; repeat split; try discriminate;
      intros o Hin; repeat (destruct Hin as [<-|Hin]; [eauto |]); contradiction.
  - intros ->. destruct Hinv as ([e He] & Hcl & Hctx). subst. cbn.
    repeat split; intros ->; reflexivity.
Qed.

Lemma waiting_accept_released_by_lifetime_context_witness :
  (forall o,
     In o (AcceptStream_select (AcceptStream 1 ctx_active) ctx_active session17_closed) ->
     exists c', o = Returned c' None (closeErr session17_closed)) /\
  AcceptStream 1 ctx_active session17_closing =
    [Returned session17_closing None (closeErr session17_closing)] /\
  AcceptStream_select (AcceptStream 1 ctx_active) ctx_active session17_closing =
    [Parked session17_closing].
Proof.
  destruct (waiting_accept_released_by_lifetime_context
              (mkSession session17_closed pc_exited) 0 ctx_active
              session17_closed_reachable eq_refl) as [Hdone _].
  destruct (waiting_accept_released_by_lifetime_context
              (mkSession session17_closing pc_ctxCancel) 0 ctx_active
              session17_closing_reachable eq_refl) as [_ Hwin].
  destruct (Hdone eq_refl) as (_ & _ & Hall & _).
  destruct (Hwin eq_refl) as (Hnew & _ & Hparked & _).
  exact (conj Hall (conj Hnew (Hparked eq_refl))).
Defined.

(** X8: a call waiting on the empty queue of an open session is woken by
    the next push: it receives the notification, takes the pushed stream
    and returns it, and the connection is then what it was before the
    push. *)
Theorem push_wakes_waiting_accept (fuel : nat) (cctx : Context) (c : Conn) (h : handle) :
  isClosed c = false ->
  ctx c = ctx_active ->
  ctx_Done cctx = false ->
  (acceptQueue c = [] -> acceptChan c = false ->
   AcceptStream (S fuel) cctx c = [Parked c] /\
   AcceptStream_select (AcceptStream (S fuel) cctx) cctx (addStream (Some h) c) =
   [Returned c (accepted h) None]) /\
  (acceptUniQueue c = [] -> acceptUniChan c = false ->
   AcceptUniStream (S fuel) cctx c = [Parked c] /\
   AcceptUniStream_select (AcceptUniStream (S fuel) cctx) cctx
                          (addUniStream (Some h) c) =
   [Returned c (acceptedUni h) None]).
Proof.
  intros Hc Hx Hcctx. destruct cctx; [| discriminate Hcctx].
  destruct c as [? ? ? ? ? ? ch q uch uq]; cbn in Hc, Hx; subst.
  split; intros Hq Hch; cbn in Hq, Hch; subst; split; reflexivity.
Qed.

Lemma push_wakes_waiting_accept_witness :
  (AcceptStream 1 ctx_active session17 = [Parked session17] /\
   AcceptStream_select (AcceptStream 1 ctx_active) ctx_active
                       (addStream (Some 4%nat) session17) =
   [Returned session17 (accepted 4%nat) None]) /\
  (AcceptUniStream 1 ctx_active session17 = [Parked session17] /\
   AcceptUniStream_select (AcceptUniStream 1 ctx_active) ctx_active
                          (addUniStream (Some 4%nat) session17) =
   [Returned session17 (acceptedUni 4%nat) None]).
Proof.
  destruct (push_wakes_waiting_accept 0 ctx_active session17 4%nat
              eq_refl eq_refl eq_refl) as [Hbidi Huni].
  exact (conj (Hbidi eq_refl eq_refl) (Huni eq_refl eq_refl)).
Defined.

(** ** More on pushes, accepts and the handler *)

(** X9: pushes and accepts made one after the other in any order, such
    that every accept call finds a stream in the queue, have one outcome:
    the accept calls return, in order, the first streams of what was queued
    at the start followed by what was pushed. *)
Theorem calls_in_any_order_deliver_in_push_order
    (fuel : nat) (calls : list call) (c : Conn) (pending hs : list handle) :
  closed c = false ->
  acceptQueue c = map Some pending ->
  due calls pending = Some hs ->
  (exists c', run_calls (S fuel) calls c = [Returned c' (map accepted hs) None]) /\
  (exists rest, pending ++ pushed calls = hs ++ rest).
Proof.
  intros Hopen Hq Hdue. split.
  - exact (run_calls_in_order fuel calls c pending hs Hopen Hq Hdue).
  - exact (due_is_prefix calls pending hs Hdue).
Qed.

Lemma calls_in_any_order_deliver_in_push_order_witness :
  (exists c',
     run_calls 1 [call_addStream 1%nat; call_AcceptStream ctx_active;
                  call_addStream 2%nat; call_addStream 3%nat;
                  call_AcceptStream ctx_active] session17 =
     [Returned c' (map accepted [1%nat; 2%nat]) None]) /\
  (exists rest,
     [] ++ pushed [call_addStream 1%nat; call_AcceptStream ctx_active;
                   call_addStream 2%nat; call_addStream 3%nat;
                   call_AcceptStream ctx_active] = [1%nat; 2%nat] ++ rest).
Proof.
  exact (calls_in_any_order_deliver_in_push_order
           0 [call_addStream 1%nat; call_AcceptStream ctx_active;
              call_addStream 2%nat; call_addStream 3%nat;
              call_AcceptStream ctx_active]
           session17 [] [1%nat; 2%nat] eq_refl eq_refl eq_refl).
Defined.

Lemma addStreams_nonempty strs : forall c,
  strs <> [] ->
  addStreams strs c = set_acceptChan true (set_acceptQueue (acceptQueue c ++ strs) c).
Proof.
  induction strs as [|str strs IH]; intros c Hne; [congruence |].
  cbn [addStreams fold_left]. destruct strs as [|str' strs].
  - cbn. destruct c as [? ? ? ? ? ? ch ? ? ?]. now destruct ch.
  - change (fold_left (fun c' str0 => addStream str0 c') (str' :: strs)
                      (addStream str c))
      with (addStreams (str' :: strs) (addStream str c)).
    rewrite IH by discriminate.
    destruct c as [? ? ? ? ? ? ch q ? ?]. cbn.
    now rewrite <- app_assoc.
Qed.

(** X10: however many streams are pushed, they leave one notification,
    and accept calls that find the queue non-empty do not receive it: when
    the pushed streams have all been accepted, the connection is the one
    before the pushes with the notification still pending.  The next accept
    call receives it, finds the queue empty and parks. *)
Theorem drained_queue_keeps_one_notification
    (fuel : nat) (c : Conn) (ps : list handle) (cctxs : list Context) :
  isClosed c = false ->
  ctx c = ctx_active ->
  acceptQueue c = [] ->
  acceptChan c = false ->
  ps <> [] ->
  List.length cctxs = List.length ps ->
  accept_each (AcceptStream (S fuel)) cctxs (addStreams (map Some ps) c) =
    [Returned (set_acceptChan true c) (map accepted ps) None] /\
  AcceptStream (S (S fuel)) ctx_active (set_acceptChan true c) = [Parked c].
Proof.
  intros Hc Hx Hq Hch Hne Hlen.
  assert (Hne' : map Some ps <> []) by (destruct ps; [congruence | discriminate]).
  split.
  - rewrite (accept_each_drains fuel ps cctxs (addStreams (map Some ps) c) []).
    + rewrite (addStreams_nonempty _ c Hne').
      destruct c; cbn in Hq |- *. now subst.
    + destruct (addStreams_fields (map Some ps) c) as [_ H]. now rewrite H.
    + destruct (addStreams_fields (map Some ps) c) as [H _].
      rewrite H, Hq. cbn. now rewrite app_nil_r.
    + exact Hlen.
  - rewrite AcceptStream_fuel.
    destruct c as [? ? ? ? ? ? ch q ? ?]; cbn in Hc, Hx, Hq, Hch; subst.
    reflexivity.
Qed.

Lemma drained_queue_keeps_one_notification_witness :
  accept_each (AcceptStream 1) [ctx_active; ctx_active]
              (addStreams (map Some [1%nat; 2%nat]) session17) =
    [Returned (set_acceptChan true session17) (map accepted [1%nat; 2%nat]) None] /\
  AcceptStream 2 ctx_active (set_acceptChan true session17) = [Parked session17].
Proof.
  refine (drained_queue_keeps_one_notification
            0 session17 [1%nat; 2%nat] [ctx_active; ctx_active]
            eq_refl eq_refl eq_refl eq_refl _ eq_refl).
  discriminate.
Defined.

Lemma handleConn_outcome reads : forall c,
  handleConn reads c =
  match first_error reads with
  | None => handler_reading c
  | Some e =>
      if closed c then handler_panicked
      else handler_returned
             (set_closed true
                (set_closeErr (Some (fmt_Errorf_w session_closed_prefix e)) c))
  end.
Proof.
  induction reads as [|[err|] reads IH]; intros c; cbn; trivial.
  unfold close_chan. destruct c as [? ? ? ? ? cl ? ? ? ?]. now destruct cl.
Qed.

(** X11: the handler goroutine is decided by the first error among the
    answers of the control-stream reader.  With no error it is still
    reading and the connection is untouched, whatever was read.  With a
    first error [e] on a connection that is not closed it ends with
    [closeErr] the wrapping of [e], [closed] fired and the lifetime context
    cancelled, and no answer after [e] matters; on a connection already
    closed it panics in [close(c.closed)]. *)
Theorem handler_goroutine_is_decided_by_first_error
    (reads : list error) (c : Conn) :
  (first_error reads = None -> handler_goroutine reads c = handler_reading c) /\
  (forall e, first_error reads = Some e ->
     (closed c = false ->
      handler_goroutine reads c =
      handler_returned
        (set_ctx (ctxCancel (ctx c))
           (set_closed true
              (set_closeErr (Some (fmt_Errorf_w session_closed_prefix e)) c))) /\
      forall later, handler_goroutine (until_error reads ++ later) c =
                    handler_goroutine reads c) /\
     (closed c = true -> handler_goroutine reads c = handler_panicked)).
Proof.
  unfold handler_goroutine. split.
  - intros Hf. now rewrite handleConn_outcome, Hf.
  - intros e Hf. split; intros Hc.
    + split.
      * rewrite handleConn_outcome, Hf, Hc. reflexivity.
      * intros later. rewrite !handleConn_outcome.
        assert (Hu : forall l, first_error (until_error l ++ later) = first_error l
                               \/ first_error l = None).
        { induction l as [|[err|] l IHl]; cbn; auto. }
        destruct (Hu reads) as [-> | Hn]; [reflexivity | congruence].
    + now rewrite handleConn_outcome, Hf, Hc.
Qed.

Lemma handler_goroutine_is_decided_by_first_error_witness :
  handler_goroutine [None; Some io_EOF; None] session17 =
    handler_returned session17_closed /\
  handler_goroutine [None; Some io_EOF; Some context_Canceled] session17 =
    handler_goroutine [None; Some io_EOF; None] session17 /\
  handler_goroutine [None; Some io_EOF; None] session17_closing = handler_panicked.
Proof.
  destruct (proj2 (handler_goroutine_is_decided_by_first_error
                     [None; Some io_EOF; None] session17) io_EOF eq_refl)
    as [Hopen _].
  destruct (proj2 (handler_goroutine_is_decided_by_first_error
                     [None; Some io_EOF; None] session17_closing) io_EOF eq_refl)
    as [_ Hclosed].
  destruct (Hopen eq_refl) as [Hret Hlater].
  exact (conj Hret (conj (Hlater [Some context_Canceled]) (Hclosed eq_refl))).
Defined.

(** X12: on a session made by [newConn], the context that [Context()]
    returns is done only when the session is closed: then [isClosed] is
    true, the terminal error is recorded and the context's error is
    [context.Canceled]; as long as no terminal error is recorded the
    session is open and the context is live. *)
Theorem lifetime_context_done_only_when_closed (s : Session) :
  reachable s ->
  (ctx_Done (Context_ (conn s)) = true ->
   isClosed (conn s) = true /\
   ctx_Err (Context_ (conn s)) = Some context_Canceled /\
   exists e, closeErr (conn s) = Some (fmt_Errorf_w session_closed_prefix e)) /\
  (closeErr (conn s) = None ->
   isClosed (conn s) = false /\ ctx_Done (Context_ (conn s)) = false).
Proof.
  intros Hr. pose proof (reachable_closure_inv s Hr) as Hinv.
  unfold closure_inv, Context_, isClosed in *.
  destruct (handler s); destruct Hinv as (He & Hc & Hx); rewrite Hx, Hc; cbn;
    split; try discriminate; auto;
    intros Hn; destruct He as [e He]; congruence.
Qed.

Lemma lifetime_context_done_only_when_closed_witness :
  (isClosed session17_closed = true /\
   ctx_Err (Context_ session17_closed) = Some context_Canceled /\
   exists e, closeErr session17_closed = Some (fmt_Errorf_w session_closed_prefix e)) /\
  isClosed session17 = false /\ ctx_Done (Context_ session17) = false.
Proof.
  split.
  - exact (proj1 (lifetime_context_done_only_when_closed
                    (mkSession session17_closed pc_exited) session17_closed_reachable)
                 eq_refl).
  - refine (proj2 (lifetime_context_done_only_when_closed (start session17) _) eq_refl).
    exists 65, 84, 17, session17, []. split; reflexivity.
Defined.

(** ** The queues along an execution *)

(** X13: in every execution of the session, whatever the interleaving of
    pushes, dequeues and the other actions, each queue is first in, first
    out and loses nothing: the entries taken so far, followed by the
    entries still queued, are the entries queued at the start followed by
    the entries pushed, in push order. *)
Theorem queues_are_fifo_along_executions (evs : list event) :
  forall s s',
    run s evs = Some s' ->
    taken s evs ++ acceptQueue (conn s') = acceptQueue (conn s) ++ added evs /\
    takenUni s evs ++ acceptUniQueue (conn s') =
      acceptUniQueue (conn s) ++ addedUni evs.
Proof.
  induction evs as [|ev evs IH]; intros s s' Hrun; cbn [run] in Hrun.
  - injection Hrun as <-. cbn. now rewrite !app_nil_r.
  - cbn [taken takenUni added addedUni].
    destruct (step s ev) as [s1|] eqn:Hs; cbn [bind] in Hrun; [| discriminate Hrun].
    destruct (IH s1 s' Hrun) as [Hb Hu].
    assert (Hstep :
      match ev with
      | ev_addStream str =>
          acceptQueue (conn s1) = acceptQueue (conn s) ++ [str] /\
          acceptUniQueue (conn s1) = acceptUniQueue (conn s)
      | ev_addUniStream str =>
          acceptQueue (conn s1) = acceptQueue (conn s) /\
          acceptUniQueue (conn s1) = acceptUniQueue (conn s) ++ [str]
      | ev_dequeue =>
          acceptQueue (conn s1) = tl (acceptQueue (conn s)) /\
          acceptUniQueue (conn s1) = acceptUniQueue (conn s)
      | ev_dequeueUni =>
          acceptQueue (conn s1) = acceptQueue (conn s) /\
          acceptUniQueue (conn s1) = tl (acceptUniQueue (conn s))
      | _ =>
          acceptQueue (conn s1) = acceptQueue (conn s) /\
          acceptUniQueue (conn s1) = acceptUniQueue (conn s)
      end).
    { clear IH Hrun Hb Hu. step_cases s ev Hs; auto. }
    destruct ev; destruct Hstep as [Hq Huq]; rewrite Hq in Hb; rewrite Huq in Hu;
      try (split; [exact Hb | exact Hu]).
    + split; [| exact Hu]. rewrite Hb, <- app_assoc. reflexivity.
    + split; [exact Hb |]. rewrite Hu, <- app_assoc. reflexivity.
    + split; [| destruct (acceptQueue (conn s)); exact Hu].
      destruct (acceptQueue (conn s)) as [|str rest]; cbn in Hb |- *;
        [exact Hb | now rewrite Hb].
    + split; [destruct (acceptUniQueue (conn s)); exact Hb |].
      destruct (acceptUniQueue (conn s)) as [|str rest]; cbn in Hu |- *;
        [exact Hu | now rewrite Hu].
Qed.

Lemma queues_are_fifo_along_executions_witness :
  taken (start session17)
        [ev_addStream (Some 1%nat); ev_addUniStream (Some 9%nat);
         ev_addStream (Some 2%nat); ev_dequeue; ev_Read (Some io_EOF);
         ev_addStream (Some 3%nat); ev_dequeue; ev_close] = [Some 1%nat; Some 2%nat] /\
  [Some 1%nat; Some 2%nat] ++ [Some 3%nat] =
  [] ++ [Some 1%nat; Some 2%nat; Some 3%nat].
Proof.
  split; [reflexivity |].
  exact (proj1 (queues_are_fifo_along_executions
                  [ev_addStream (Some 1%nat); ev_addUniStream (Some 9%nat);
                   ev_addStream (Some 2%nat); ev_dequeue; ev_Read (Some io_EOF);
                   ev_addStream (Some 3%nat); ev_dequeue; ev_close]
                  (start session17)
                  (mkSession
                     (set_acceptUniChan true
                        (set_acceptUniQueue [Some 9%nat]
                           (set_acceptChan true
                              (set_acceptQueue [Some 3%nat] session17_closing))))
                     pc_ctxCancel)
                  eq_refl)).
Defined.

(** X14: the capacity [2 + Len(sessionID)] that [newConn] reserves for a
    header is the length of the header exactly when the stream-type tag is
    encoded in two bytes, that is for a tag from 64 to 16383; in general
    the header has [Len(tag) + Len(sessionID)] bytes, at most 16. *)
Theorem header_capacity_fits_two_byte_tags
    (frameType uniStreamType id : Z) (c0 : Conn) :
  0 <= frameType -> 0 <= uniStreamType -> 0 <= id ->
  newConn frameType uniStreamType id = Some c0 ->
  (exists nf nu ni,
     quicvarint.Len frameType = Some nf /\ quicvarint.Len uniStreamType = Some nu /\
     quicvarint.Len id = Some ni /\
     Z.of_nat (List.length (streamHdr c0)) = nf + ni /\
     Z.of_nat (List.length (uniStreamHdr c0)) = nu + ni /\
     nf + ni <= 16 /\ nu + ni <= 16) /\
  (header_capacity id = Some (Z.of_nat (List.length (streamHdr c0))) <->
   quicvarint.maxVarInt1 < frameType <= quicvarint.maxVarInt2) /\
  (header_capacity id = Some (Z.of_nat (List.length (uniStreamHdr c0))) <->
   quicvarint.maxVarInt1 < uniStreamType <= quicvarint.maxVarInt2).
Proof.
  intros Hf Hu Hi Hnew.
  destruct (newConn_inv _ _ _ _ Hnew) as (tb & tu & ib & Hb & Ht & Hid & -> & ->).
  unfold header_capacity. rewrite !Len_varint, Hb, Ht, Hid. cbn [bind].
  rewrite !length_app, !Nat2Z.inj_add.
  assert (Hlen : forall i bytes, 0 <= i -> quicvarint.varint i = Some bytes ->
            (Z.of_nat (List.length bytes) = 1 /\ i <= quicvarint.maxVarInt1) \/
            (Z.of_nat (List.length bytes) = 2 /\
             quicvarint.maxVarInt1 < i <= quicvarint.maxVarInt2) \/
            (Z.of_nat (List.length bytes) = 4 /\ quicvarint.maxVarInt2 < i) \/
            (Z.of_nat (List.length bytes) = 8 /\ quicvarint.maxVarInt2 < i)).
  { intros i bytes H0 Hv.
    destruct (varint_cases i H0)
      as [[Hr Hc]|[[Hr Hc]|[[Hr Hc]|[[Hr Hc]|[Hr Hc]]]]];
      rewrite Hc in Hv; try discriminate Hv;
      apply (f_equal (fun o => match o with Some l => l | None => [] end)) in Hv;
      subst bytes; cbn [List.length];
      unfold quicvarint.maxVarInt1, quicvarint.maxVarInt2, quicvarint.maxVarInt4,
        quicvarint.maxVarInt8 in *; lia. }
  pose proof (Hlen _ _ Hf Hb) as Lb. pose proof (Hlen _ _ Hu Ht) as Lu.
  pose proof (Hlen _ _ Hi Hid) as Li.
  unfold quicvarint.maxVarInt1, quicvarint.maxVarInt2 in *.
  split; [| split].
  - exists (Z.of_nat (List.length tb)), (Z.of_nat (List.length tu)),
      (Z.of_nat (List.length ib)).
    repeat (split; [reflexivity |]). lia.
  - split; [| intros H; f_equal; lia].
    intros H.
    apply (f_equal (fun o => match o with Some z => z | None => 0 end)) in H.
    cbv beta iota in H. lia.
  - split; [| intros H; f_equal; lia].
    intros H.
    apply (f_equal (fun o => match o with Some z => z | None => 0 end)) in H.
    cbv beta iota in H. lia.
Qed.

Lemma header_capacity_fits_two_byte_tags_witness :
  header_capacity 17 = Some (Z.of_nat (List.length (streamHdr session17))) /\
  header_capacity 17 = Some (Z.of_nat (List.length (uniStreamHdr session17))).
Proof.
  destruct (header_capacity_fits_two_byte_tags 65 84 17 session17)
    as (_ & Hb & Hu); try solve [lia | reflexivity].
  split; [apply Hb | apply Hu]; unfold quicvarint.maxVarInt1, quicvarint.maxVarInt2; lia.
Defined.
